(** * Reaction-diffusion simulation (FitzHugh-Nagumo, Turing patterns)

    A shallow embedding of the numerical kernel of
    [featured/05_turing.ipynb]: the five-point [laplacian], the
    simultaneous interior update of the two fields and the Neumann
    boundary pass, together with the configuration cells that precede
    the loop.

    NumPy arrays are modelled as they behave: an [ndarray] is a window
    (offset and extent) onto a buffer that lives in a heap, basic slicing
    builds another window onto the same buffer without copying, arithmetic
    allocates a fresh buffer for its result, and slice assignment writes
    through the window into the buffer.  Scalars are kept abstract (a
    [Scalar] instance supplies the arithmetic), so that every statement
    proved without arithmetic laws holds whatever the arithmetic is;
    statements that need exact arithmetic are proved for the rationals. *)

From Stdlib Require Import QArith Qcanon Lqa.
From stdpp Require Import gmap list.
Close Scope Qc_scope.
Close Scope Q_scope.

(** ** Exceptions raised by the interpreter and by NumPy *)

Inductive exn : Set :=
  | ZeroDivisionError
  | ValueError
  | IndexError
  | OverflowError
  | ReferenceError.

(** ** Scalars

    [of_Q] gives the scalar denoted by a literal (and the conversion of a
    Python [int] to a float); [to_int] is Python's [int(x)] on a float,
    which truncates toward zero and raises on a non-finite argument. *)

Class Scalar (F : Type) := {
  fadd : F → F → F;
  fsub : F → F → F;
  fmul : F → F → F;
  fdiv : F → F → F;
  fpow : F → nat → F;
  of_Q : Q → F;
  is_zero : F → bool;
  to_int : F → exn + Z
}.

Definition of_Z `{Scalar F} (z : Z) : F := of_Q (inject_Z z).

(** The source of uniform random numbers behind [np.random.rand]:
    drawing a sample advances the generator. *)

Class RandomSource (G F : Type) := draw : G → F * G.

(** ** Matrices: the contents of a two-dimensional buffer, row-major *)

Section Matrix.
Context {A : Type}.
Implicit Types m data : list (list A).

Definition has_shape (nr nc : nat) m : Prop :=
  length m = nr ∧ Forall (λ row, length row = nc) m.

Definition cell m (i j : nat) : option A :=
  m !! i ≫= λ row, row !! j.

(** The [nr]×[nc] block of [m] whose top-left corner is [(r0, c0)]. *)
Definition window (r0 nr c0 nc : nat) m : list (list A) :=
  (λ row, take nc (drop c0 row)) <$> take nr (drop r0 m).

(** [m] with the block at [(r0, c0)] overwritten by [data]. *)
Definition blit (r0 c0 : nat) data m : list (list A) :=
  list_inserts r0 (zip_with (list_inserts c0) data (drop r0 m)) m.

End Matrix.

(** Element-wise application of a function, and of a binary function to
    two matrices of one shape. *)
Definition mmap {A B} (f : A → B) (m : list (list A)) : list (list B) :=
  (λ row : list A, f <$> row) <$> m.
Definition mzip {A B C} (f : A → B → C)
    (m1 : list (list A)) (m2 : list (list B)) : list (list C) :=
  zip_with (zip_with f) m1 m2.

(** ** Python slices and integer indices *)

Definition slice : Set := option Z * option Z.
Definition sl (start stop : Z) : slice := (Some start, Some stop).
Definition from (start : Z) : slice := (Some start, None).

(** A slice bound against an axis of length [len]: negative bounds count
    from the end, and the result is clamped into [0..len]. *)
Definition clip (len : nat) (i : Z) : nat :=
  Z.to_nat (if (i <? 0)%Z then Z.max 0 (i + Z.of_nat len)
            else Z.min i (Z.of_nat len)).

(** Offset and number of elements selected by [start:stop]. *)
Definition slice_range (len : nat) (s : slice) : nat * nat :=
  let lo := from_option (clip len) 0 s.1 in
  let hi := from_option (clip len) len s.2 in
  (lo, hi - lo).

(** An integer index: negative indices count from the end, anything
    outside the axis raises. *)
Definition index (len : nat) (i : Z) : exn + nat :=
  let j := if (i <? 0)%Z then (i + Z.of_nat len)%Z else i in
  if decide (0 ≤ j < Z.of_nat len)%Z then inr (Z.to_nat j) else inl IndexError.

(** ** Arrays, the heap and the world *)

Definition loc := nat.

Record ndarray : Set := NDArray {
  base : loc;
  row0 : nat; nrows : nat;
  col0 : nat; ncols : nat
}.

Definition shape (v : ndarray) : nat * nat := (nrows v, ncols v).

(** [Z[rs, cs]]: basic slicing returns a view. *)
Definition subview (v : ndarray) (rs cs : slice) : ndarray :=
  let '(r, nr) := slice_range (nrows v) rs in
  let '(c, nc) := slice_range (ncols v) cs in
  NDArray (base v) (row0 v + r) nr (col0 v + c) nc.

Section Model.
Context {F G : Type} `{!Scalar F, !RandomSource G F}.

Record world := World {
  heap : gmap loc (list (list F));
  rng : G
}.

(** Computations: they read and write the world and may raise. *)
Definition M (A : Type) : Type := world → exn + A * world.

#[export] Instance M_ret : MRet M := λ A a w, inr (a, w).
#[export] Instance M_bind : MBind M := λ A B f c w,
  match c w with
  | inl e => inl e
  | inr (a, w') => f a w'
  end.

Definition raise {A} (e : exn) : M A := λ _, inl e.
Definition lift {A} (r : exn + A) : M A := λ w,
  match r with inl e => inl e | inr a => inr (a, w) end.

(** *** Scalar operations of the interpreter *)

(** [x / y] on floats. *)
Definition py_div (x y : F) : M F :=
  if is_zero y then raise ZeroDivisionError else mret (fdiv x y).

(** [int(x)]. *)
Definition py_int (x : F) : M Z := lift (to_int x).

(** [for i in range(n): body]. *)
Fixpoint repeat_body (n : nat) (body : M unit) : M unit :=
  match n with
  | O => mret tt
  | S n' => body;; repeat_body n' body
  end.
Definition for_range (n : Z) (body : M unit) : M unit :=
  repeat_body (Z.to_nat n) body.

(** [for Z in (..): body]. *)
Fixpoint for_each {A} (xs : list A) (body : A → M unit) : M unit :=
  match xs with
  | [] => mret tt
  | x :: xs' => body x;; for_each xs' body
  end.

(** *** NumPy primitives *)

(** The values seen through a view, now.  A view is always onto a
    buffer of the heap; [ReferenceError] stands for the case that cannot
    arise. *)
Definition fetch (v : ndarray) : M (list (list F)) := λ w,
  match heap w !! base v with
  | Some m => inr (window (row0 v) (nrows v) (col0 v) (ncols v) m, w)
  | None => inl ReferenceError
  end.

(** A new array owning a fresh buffer. *)
Definition alloc (nr nc : nat) (m : list (list F)) : M ndarray := λ w,
  let l := fresh (dom (heap w)) in
  inr (NDArray l 0 nr 0 nc, World (<[l:=m]> (heap w)) (rng w)).

(** Element-wise binary operation on two arrays of the same shape.
    The notebook combines arrays of one shape only; the broadcasting
    NumPy applies to other shapes is not modelled, such operands raise. *)
Definition ufunc2 (f : F → F → F) (x y : ndarray) : M ndarray :=
  if decide (shape x = shape y) then
    a ← fetch x; b ← fetch y;
    alloc (nrows x) (ncols x) (mzip f a b)
  else raise ValueError.

(** Element-wise operation between an array and a scalar. *)
Definition ufunc1 (f : F → F) (x : ndarray) : M ndarray :=
  a ← fetch x; alloc (nrows x) (ncols x) (mmap f a).

Definition np_add := ufunc2 fadd.
Definition np_sub := ufunc2 fsub.
(** [c * x] *)
Definition np_smul (c : F) := ufunc1 (fmul c).
(** [x + c] *)
Definition np_adds (x : ndarray) (c : F) := ufunc1 (λ e, fadd e c) x.
(** [x / c]: NumPy division by a scalar never raises. *)
Definition np_divs (x : ndarray) (c : F) := ufunc1 (λ e, fdiv e c) x.
(** [x ** n] *)
Definition np_pow (x : ndarray) (n : nat) := ufunc1 (λ e, fpow e n) x.

(** Writing a block of values through a view into its buffer. *)
Definition store (dst : ndarray) (data : list (list F)) : M unit := λ w,
  match heap w !! base dst with
  | Some m =>
      inr (tt, World (<[base dst := blit (row0 dst) (col0 dst) data m]>
                        (heap w)) (rng w))
  | None => inl ReferenceError
  end.

(** [dst[...] = src]: the values of [src] are read, then written
    through [dst]. *)
Definition setitem (dst src : ndarray) : M unit :=
  if decide (shape dst = shape src) then
    data ← fetch src; store dst data
  else raise ValueError.

(** [Z[i, :]] and [Z[:, j]]: one row, one column, as views (of one row,
    of one column: both sides of the assignments of the notebook have
    the same orientation). *)
Definition row_at (v : ndarray) (i : Z) : M ndarray :=
  r ← lift (index (nrows v) i);
  mret (NDArray (base v) (row0 v + r) 1 (col0 v) (ncols v)).
Definition col_at (v : ndarray) (j : Z) : M ndarray :=
  c ← lift (index (ncols v) j);
  mret (NDArray (base v) (row0 v) (nrows v) (col0 v + c) 1).

(** [np.random.rand(r, c)] *)
Fixpoint draw_row (n : nat) (g : G) : list F * G :=
  match n with
  | O => ([], g)
  | S n' => let '(x, g1) := draw g in
            let '(xs, g2) := draw_row n' g1 in (x :: xs, g2)
  end.
Fixpoint draw_rows (nr nc : nat) (g : G) : list (list F) * G :=
  match nr with
  | O => ([], g)
  | S nr' => let '(row, g1) := draw_row nc g in
             let '(rows, g2) := draw_rows nr' nc g1 in (row :: rows, g2)
  end.
Definition rand (r c : Z) : M ndarray :=
  if decide (r < 0 ∨ c < 0)%Z then raise ValueError
  else λ w,
    let '(m, g) := draw_rows (Z.to_nat r) (Z.to_nat c) (rng w) in
    alloc (Z.to_nat r) (Z.to_nat c) m (World (heap w) g).

(** *** The notebook *)

(** def laplacian(Z), with the global [dx] it reads. *)
Definition laplacian (dx : F) (Z : ndarray) : M ndarray :=
  let Ztop := subview Z (sl 0 (-2)) (sl 1 (-1)) in
  let Zleft := subview Z (sl 1 (-1)) (sl 0 (-2)) in
  let Zbottom := subview Z (from 2) (sl 1 (-1)) in
  let Zright := subview Z (sl 1 (-1)) (from 2) in
  let Zcenter := subview Z (sl 1 (-1)) (sl 1 (-1)) in
  s1 ← np_add Ztop Zleft;
  s2 ← np_add s1 Zbottom;
  s3 ← np_add s2 Zright;
  c4 ← np_smul (of_Z 4) Zcenter;
  d ← np_sub s3 c4;
  np_divs d (fpow dx 2).

(** The four assignments of the Neumann pass on one field. *)
Definition neumann (Z : ndarray) : M unit :=
  (src ← row_at Z 1; dst ← row_at Z 0; setitem dst src);;
  (src ← row_at Z (-2); dst ← row_at Z (-1); setitem dst src);;
  (src ← col_at Z 1; dst ← col_at Z 0; setitem dst src);;
  (src ← col_at Z (-2); dst ← col_at Z (-1); setitem dst src).

(** The model constants and the discretisation steps the loop reads. *)
Record params := Params {
  p_a : F; p_b : F; p_tau : F; p_k : F;
  p_dx : F; p_dt : F
}.

(** The body of the simulation loop. *)
Definition step (p : params) (U V : ndarray) : M unit :=
  deltaU ← laplacian (p_dx p) U;
  deltaV ← laplacian (p_dx p) V;
  let Uc := subview U (sl 1 (-1)) (sl 1 (-1)) in
  let Vc := subview V (sl 1 (-1)) (sl 1 (-1)) in
  (* the right-hand tuple is built first, left to right *)
  u1 ← np_smul (p_a p) deltaU;
  u2 ← np_add u1 Uc;
  u3 ← np_pow Uc 3;
  u4 ← np_sub u2 u3;
  u5 ← np_sub u4 Vc;
  u6 ← np_adds u5 (p_k p);
  u7 ← np_smul (p_dt p) u6;
  newU ← np_add Uc u7;
  v1 ← np_smul (p_b p) deltaV;
  v2 ← np_add v1 Uc;
  v3 ← np_sub v2 Vc;
  v4 ← np_smul (p_dt p) v3;
  v5 ← np_divs v4 (p_tau p);
  newV ← np_add Vc v5;
  (* then the two targets are assigned, left to right *)
  setitem (subview U (sl 1 (-1)) (sl 1 (-1))) newU;;
  setitem (subview V (sl 1 (-1)) (sl 1 (-1))) newV;;
  for_each [U; V] neumann.

(** The configuration cells. *)
Record config := Config {
  size : Z; T : F;
  a : F; b : F; tau : F; k : F
}.

(** The notebook from its configuration to the final fields. *)
Definition simulate (c : config) : M (ndarray * ndarray) :=
  dx ← py_div (of_Q 2) (of_Z (size c));
  dt ← py_div (fmul (of_Q (9 # 10)) (fpow dx 2)) (of_Z 2);
  q ← py_div (T c) dt;
  n ← py_int q;
  U ← rand (size c) (size c);
  V ← rand (size c) (size c);
  for_range n (step (Params (a c) (b c) (tau c) (k c) dx dt) U V);;
  mret (U, V).
End Model.

Arguments world : clear implicits.
Arguments M : clear implicits.
Arguments params : clear implicits.
Arguments config : clear implicits.

(** ** Exact rational arithmetic

    The rationals are the arithmetic without rounding, not the floats of
    the interpreter: no operation rounds, overflows or underflows (so
    [dt] is never zero for a non-zero [size]) and [to_int] never raises.
    A division by zero yields 0, where NumPy yields an infinity or a
    NaN; neither raises.  This instance is used for the statements about
    values that are explicitly in exact arithmetic (they assume [dx] is
    not zero where they divide by it) and for the concrete runs; what a
    run raises and how many iterations it makes is stated for any
    arithmetic, from what the scalar cells have computed. *)

#[export] Instance Qc_scalar : Scalar Qc := {
  fadd := Qcplus;
  fsub := Qcminus;
  fmul := Qcmult;
  fdiv := Qcdiv;
  fpow := Qcpower;
  of_Q := Q2Qc;
  is_zero := λ x, bool_decide (x = Q2Qc 0);
  to_int := λ x, inr (Z.quot (Qnum (this x)) (Zpos (Qden (this x))))
}.

(** A small linear congruential generator of samples in [0,1). *)
#[export] Instance lcg : RandomSource Z Qc := λ s,
  let s' := ((s * 5 + 3) mod 64)%Z in
  (Q2Qc (Qmake s' 64), s').

(** * The vocabulary of the specification

    Matrices are described by the index function they tabulate, arrays by
    what is read through them in a given world, and computations by the
    results they return. *)

Section Tables.
Context {A : Type}.
Implicit Types (m data : list (list A)) (f g : nat → nat → A).

(** [m] has shape [nr]×[nc] and its entry [(i, j)] is [f i j]. *)
Definition tabulates (nr nc : nat) f m : Prop :=
  has_shape nr nc m ∧ ∀ i j, i < nr → j < nc → cell m i j = Some (f i j).

(** The [nr]×[nc] matrix of the values of [f]. *)
Definition tabulate (nr nc : nat) f : list (list A) :=
  (λ i, f i <$> seq 0 nc) <$> seq 0 nr.

(** The entry of [m] at [(i, j)], [d] outside of [m]. *)
Definition entry (d : A) m (i j : nat) : A := default d (cell m i j).

(** [m] with the single entry [(i, j)] replaced by [x]. *)
Definition poke (i j : nat) (x : A) m : list (list A) :=
  alter (λ row, <[j:=x]> row) i m.

(** [g] laid over [f] on the block of extent [nr]×[nc] at [(r0, c0)]:
    what a block assignment does to a table. *)
Definition overlay (r0 nr c0 nc : nat) g f : nat → nat → A := λ i j,
  if decide (r0 ≤ i < r0 + nr ∧ c0 ≤ j < c0 + nc)
  then g (i - r0) (j - c0) else f i j.

(** [Z[0,:] = Z[1,:]] and then [Z[-1,:] = Z[-2,:]], on an [R]×[C]
    table. *)
Definition rows_pass (R C : nat) f : nat → nat → A :=
  let f1 := overlay 0 1 0 C (λ i j, f (1 + i) j) f in
  overlay (R - 1) 1 0 C (λ i j, f1 (R - 2 + i) j) f1.

(** [Z[:,0] = Z[:,1]] and then [Z[:,-1] = Z[:,-2]]. *)
Definition cols_pass (R C : nat) f : nat → nat → A :=
  let f3 := overlay 0 R 0 1 (λ i j, f i (1 + j)) f in
  overlay 0 R (C - 1) 1 (λ i j, f3 i (C - 2 + j)) f3.

(** The Neumann pass: the two rows, then the two columns. *)
Definition mirror (R C : nat) f : nat → nat → A :=
  cols_pass R C (rows_pass R C f).
End Tables.

(** The index an entry is copied from by the boundary pass, along an
    axis of length [n]: the two ends take the value of their inward
    neighbour. *)
Definition src (n i : nat) : nat :=
  if decide (i = 0) then 1
  else if decide (i = n - 1) then (if decide (n = 2) then 1 else n - 2)
  else i.

(** The entries of the five-point stencil around [(i0, j0)]. *)
Definition near (i0 j0 i j : nat) : Prop :=
  (i = i0 ∧ j = j0) ∨
  (i = i0 ∧ (j = j0 + 1 ∨ j + 1 = j0)) ∨
  (j = j0 ∧ (i = i0 + 1 ∨ i + 1 = i0)).

(** ** What the notebook computes, entry by entry *)

Section Kernel.
Context {F : Type} `{!Scalar F}.
Implicit Types (u v f : nat → nat → F).

(** The stencil around the input entry [(1+i, 1+j)], summed in the
    order of the source: top, left, bottom, right. *)
Definition lap (dx : F) f : nat → nat → F := λ i j,
  fdiv (fsub (fadd (fadd (fadd (f i (1 + j)) (f (1 + i) j))
                         (f (2 + i) (1 + j)))
                   (f (1 + i) (2 + j)))
             (fmul (of_Z 4) (f (1 + i) (1 + j))))
       (fpow dx 2).

(** The new value of an interior entry of [U] and of [V], from the
    values [Uc], [Vc] of the two fields at that entry and the value of
    the Laplacian of the field there. *)
Definition U_update (a k dt : F) (Uc dU Vc : F) : F :=
  fadd Uc
    (fmul dt (fadd (fsub (fsub (fadd (fmul a dU) Uc) (fpow Uc 3)) Vc) k)).

Definition V_update (b tau dt : F) (Uc Vc dV : F) : F :=
  fadd Vc (fdiv (fmul dt (fsub (fadd (fmul b dV) Uc) Vc)) tau).

(** The two right-hand sides of the simultaneous assignment, at the
    interior entry [(1+i, 1+j)]. *)
Definition rhs_U (a k dx dt : F) u v : nat → nat → F := λ i j,
  U_update a k dt (u (1 + i) (1 + j)) (lap dx u i j) (v (1 + i) (1 + j)).

Definition rhs_V (b tau dx dt : F) u v : nat → nat → F := λ i j,
  V_update b tau dt (u (1 + i) (1 + j)) (v (1 + i) (1 + j)) (lap dx v i j).

(** One iteration on [n]×[n] tables. *)
Definition step_U (a k dx dt : F) (n : nat) u v : nat → nat → F :=
  mirror n n (overlay 1 (n - 2) 1 (n - 2) (rhs_U a k dx dt u v) u).

Definition step_V (b tau dx dt : F) (n : nat) u v : nat → nat → F :=
  mirror n n (overlay 1 (n - 2) 1 (n - 2) (rhs_V b tau dx dt u v) v).
End Kernel.

(** ** Assertions about worlds and computations *)

Section Assertions.
Context {F G : Type} `{!Scalar F, !RandomSource G F}.
Implicit Types (w : world F G) (v Z U V : ndarray) (c : config F).
Implicit Types (f g : nat → nat → F).

(** [c] run in [w] returns normally, with a result and a final world
    that satisfy [Q]. *)
Definition returns {A} (c : M F G A) w (Q : A → world F G → Prop) : Prop :=
  ∃ a w', c w = inr (a, w') ∧ Q a w'.

(** Every buffer outside [L] is kept as it is (new ones may appear),
    and no random number is drawn. *)
Definition preserves (L : gset loc) w w' : Prop :=
  rng w' = rng w ∧
  ∀ l m, l ∉ L → heap w !! l = Some m → heap w' !! l = Some m.

(** Through [v] one reads [f]. *)
Definition reads w v f : Prop :=
  ∃ m R C, heap w !! base v = Some m ∧ has_shape R C m ∧
    row0 v + nrows v ≤ R ∧ col0 v + ncols v ≤ C ∧
    tabulates (nrows v) (ncols v) f
      (window (row0 v) (nrows v) (col0 v) (ncols v) m).

(** [Z] is a whole buffer and holds [f]. *)
Definition owns w Z f : Prop :=
  row0 Z = 0 ∧ col0 Z = 0 ∧
  ∃ m, heap w !! base Z = Some m ∧ tabulates (nrows Z) (ncols Z) f m.

(** The outcome of [c] run in [w], an exception or a result and a
    final world, satisfies [Φ]. *)
Definition outcome {A} (c : M F G A) w
    (Φ : exn + A * world F G → Prop) : Prop := Φ (c w).

(** The two fields after one iteration, from the two fields before. *)
Definition advance (p : params F) (n : nat)
    (s : (nat → nat → F) * (nat → nat → F)) :=
  (step_U (p_a p) (p_k p) (p_dx p) (p_dt p) n s.1 s.2,
   step_V (p_b p) (p_tau p) (p_dx p) (p_dt p) n s.1 s.2).

(** [Z] went through the boundary pass: it is an [n]×[n] array each
    entry of which holds what some table [g] had at its source. *)
Definition mirrored w Z (n : nat) : Prop :=
  ∃ m g, heap w !! base Z = Some m ∧ has_shape n n m ∧
    ∀ i j, i < n → j < n → cell m i j = Some (g (src n i) (src n j)).

(** [w] with the entry [(i, j)] of the buffer of [Z] set to [x]. *)
Definition perturb w Z (i j : nat) (x : F) : world F G :=
  World (alter (poke i j x) (base Z) (heap w)) (rng w).

(** What the consumer of a run sees: the exception, or the contents of
    the two final fields. *)
Definition fields_of (r : exn + (ndarray * ndarray) * world F G) :
    exn + option (list (list F)) * option (list (list F)) :=
  match r with
  | inl e => inl e
  | inr ((U, V), w') => inr (heap w' !! base U, heap w' !! base V)
  end.

(** The scalar cells: [dx], [dt] and the number of iterations. *)
Definition schedule c : exn + F * F * Z.t :=
  if is_zero (of_Z (size c)) then inl ZeroDivisionError else
  let dx := fdiv (of_Q 2) (of_Z (size c)) in
  if is_zero (of_Z 2) then inl ZeroDivisionError else
  let dt := fdiv (fmul (of_Q (9 # 10)) (fpow dx 2)) (of_Z 2) in
  if is_zero dt then inl ZeroDivisionError else
  match to_int (fdiv (T c) dt) with
  | inl e => inl e
  | inr n => inr (dx, dt, n)
  end.

(** The array cells: initialisation and the loop. *)
Definition run c (dx dt : F) (n : Z.t) : M F G (ndarray * ndarray) :=
  U ← rand (size c) (size c);
  V ← rand (size c) (size c);
  for_range n (step (Params (a c) (b c) (tau c) (k c) dx dt) U V);;
  mret (U, V).

(** The fields a run ends with, from the state of the generator. *)
Definition final_fields c (dx dt : F) (n : Z.t) (g : G) :
    exn + option (list (list F)) * option (list (list F)) :=
  if decide (size c < 0)%Z then inl ValueError else
  let N := Z.to_nat (size c) in
  let '(m1, g1) := draw_rows N N g in
  let '(m2, _) := draw_rows N N g1 in
  if decide (N < 2 ∧ 0 < Z.to_nat n) then inl IndexError else
  let s := Nat.iter (Z.to_nat n)
             (advance (Params (a c) (b c) (tau c) (k c) dx dt) N)
             (entry (of_Q 0) m1, entry (of_Q 0) m2) in
  inr (Some (tabulate N N s.1), Some (tabulate N N s.2)).
End Assertions.

(** ** Exact values and concrete worlds *)

Section Values.
Local Open Scope Qc_scope.

Definition half : Qc := Q2Qc (1 # 2).
Definition eighth : Qc := Q2Qc (1 # 8).

(** The rational number of a grid index. *)
Definition of_nat (i : nat) : Qc := Q2Qc (inject_Z (Z.of_nat i)).

(** The samples of [f(x, y) = α x + β y + γ] on the regular grid of
    origin [(x0, y0)] and step [h]: the entry [(i, j)] is
    [f (x0 + j h) (y0 + i h)]. *)
Definition affine (α β γ x0 y0 h : Qc) : nat → nat → Qc := λ i j,
  α * (x0 + of_nat j * h) + β * (y0 + of_nat i * h) + γ.

Definition still : nat → nat → Qc := λ _ _, half.

Definition quiet (dx dt : Qc) : params Qc :=
  {| p_a := 0; p_b := 0; p_tau := 1; p_k := 0; p_dx := dx; p_dt := dt |}.
End Values.

(** Two 3×3 fields: [U] holds [3 i + j], [V] is zero. *)
Definition ramp : nat → nat → Qc := λ i j, of_nat (3 * i + j).
Definition flat : nat → nat → Qc := λ _ _, Q2Qc 0.

Definition U3 : ndarray := NDArray 0 0 3 0 3.
Definition V3 : ndarray := NDArray 1 0 3 0 3.

Definition world3 : world Qc Z.t :=
  World (<[1 := tabulate 3 3 flat]> {[0 := tabulate 3 3 ramp]}) 1%Z.

(** The constants of the notebook, with the steps of a 3×3 grid. *)
Definition notebook3 : params Qc :=
  {| p_a := Q2Qc (28 # 100000); p_b := Q2Qc (5 # 1000);
     p_tau := Q2Qc (1 # 10); p_k := Q2Qc (-5 # 1000);
     p_dx := Q2Qc (2 # 3); p_dt := Q2Qc (1 # 5) |}.

(** Two 5×5 fields, both constant at 0.5, and the steps of a 5×5
    grid: [dx = 2/5], [dt = 0.9 * dx**2 / 2 = 9/125]. *)
Definition U5 : ndarray := NDArray 0 0 5 0 5.
Definition V5 : ndarray := NDArray 1 0 5 0 5.

Definition world5 : world Qc Z.t :=
  World (<[1 := tabulate 5 5 still]> {[0 := tabulate 5 5 still]}) 1%Z.

(** An entry of a buffer, as a plain fraction. *)
Definition peek (w : world Qc Z.t) (Z : ndarray) (i j : nat) : option Q :=
  m ← heap w !! base Z; this <$> cell m i j.

(** A buffer, and the buffer of an array, as plain fractions. *)
Definition fractions (m : list (list Qc)) : list (list Q) :=
  (λ row : list Qc, this <$> row) <$> m.

Definition contents (r : exn + ndarray * world Qc Z.t) :
    exn + list (list Q) :=
  match r with
  | inl e => inl e
  | inr (Z, w) => inr (default [] (fractions <$> heap w !! base Z))
  end.

(** A world with one array, of the given rows of integers. *)
Definition integers (rows : list (list nat)) : world Qc Z.t :=
  World {[0 := (λ row : list nat, of_nat <$> row) <$> rows]} 1%Z.

(** The configuration of the notebook. *)
Definition notebook : config Qc :=
  {| size := 100; T := Q2Qc 10;
     a := Q2Qc (28 # 100000); b := Q2Qc (5 # 1000);
     tau := Q2Qc (1 # 10); k := Q2Qc (-5 # 1000) |}.


Definition empty_world : world Qc Z.t := World ∅ 1%Z.

(** The notebook's constants with [b] and [tau] replaced. *)
Definition notebook3' : params Qc :=
  {| p_a := p_a notebook3; p_b := Q2Qc 7; p_tau := Q2Qc 3;
     p_k := p_k notebook3; p_dx := p_dx notebook3; p_dt := p_dt notebook3 |}.

(** A 4×4 field sampling [f(x, y) = 2 x + 3 y + 5] on [-1, 1]², with
    step [1/2]. *)
Definition slope : nat → nat → Qc :=
  affine (Q2Qc 2) (Q2Qc 3) (Q2Qc 5) (Q2Qc (-1)) (Q2Qc (-1)) (Q2Qc (1 # 2)).

Definition Z4 : ndarray := NDArray 0 0 4 0 4.

Definition world4 : world Qc Z.t := World {[0 := tabulate 4 4 slope]} 1%Z.

(** ** Further vocabulary *)

(** The four corners of an [R]×[C] array. *)
Definition corner (R C i j : nat) : Prop :=
  (i = 0 ∨ i = R - 1) ∧ (j = 0 ∨ j = C - 1).

(** The samples of the quadratic function
    [q(x, y) = α x² + β y² + γ x y + δ x + ε y + ζ] on the regular grid
    of origin [(x0, y0)] and step [h]. *)
Definition quadratic (α β γ δ ε ζ x0 y0 h : Qc) : nat → nat → Qc := λ i j,
  let x := Qcplus x0 (Qcmult (of_nat j) h) in
  let y := Qcplus y0 (Qcmult (of_nat i) h) in
  Qcplus
    (Qcplus
       (Qcplus
          (Qcplus (Qcplus (Qcmult (Qcmult α x) x) (Qcmult (Qcmult β y) y))
                  (Qcmult (Qcmult γ x) y))
          (Qcmult δ x))
       (Qcmult ε y))
    ζ.

(** A field that has the same value everywhere. *)
Definition uniform {A} (c : A) : nat → nat → A := λ _ _, c.

(** The cell that creates the two fields:
    [U = np.random.rand(size, size)], [V = np.random.rand(size, size)]. *)
Definition initialise {F G : Type} `{!Scalar F, !RandomSource G F}
    (n : Z) : M F G (ndarray * ndarray) :=
  U ← rand n n;
  V ← rand n n;
  mret (U, V).

(** ** Further samples *)

(** A 2×3 and a 1×1 array of integers. *)
Definition Z23 : ndarray := NDArray 0 0 2 0 3.
Definition world23 : world Qc Z.t := integers [[1; 2; 3]; [4; 5; 6]].
Definition Z11 : ndarray := NDArray 0 0 1 0 1.
Definition world11 : world Qc Z.t := integers [[7]].

(** A 4×4 field sampling [q(x, y) = x² + 2 y² + 3 x y + 4 x + 5 y + 6]
    on [-1, 1]², with step [1/2]. *)
Definition bowl : nat → nat → Qc :=
  quadratic (Q2Qc 1) (Q2Qc 2) (Q2Qc 3) (Q2Qc 4) (Q2Qc 5) (Q2Qc 6)
    (Q2Qc (-1)) (Q2Qc (-1)) (Q2Qc (1 # 2)).

Definition world_bowl : world Qc Z.t :=
  World {[0 := tabulate 4 4 bowl]} 1%Z.

(** The notebook's constants with [k = (1/2)³], on a 5×5 grid. *)
Definition balanced : params Qc :=
  {| p_a := Q2Qc (28 # 100000); p_b := Q2Qc (5 # 1000);
     p_tau := Q2Qc (1 # 10); p_k := eighth;
     p_dx := Q2Qc (2 # 5); p_dt := Q2Qc (9 # 125) |}.

(** The configuration of the notebook on another grid, for another
    total time. *)
Definition with_grid (n : Z) (t : Qc) : config Qc :=
  {| size := n; T := t;
     a := a notebook; b := b notebook; tau := tau notebook; k := k notebook |}.

Definition dx3 : Qc := Qcdiv (Q2Qc 2) (of_Z 3).
Definition dt3 : Qc := Qcdiv (Qcmult (Q2Qc (9 # 10)) (Qcpower dx3 2)) (of_Z 2).

(** Three 3×3 fields in one world: the third holds twice the first plus
    the second. *)
Definition blend : nat → nat → Qc := λ i j,
  Qcplus (Qcmult (Q2Qc 2) (ramp i j)) (flat i j).
Definition W3 : ndarray := NDArray 2 0 3 0 3.
Definition world3_blend : world Qc Z.t :=
  World (<[2 := tabulate 3 3 blend]> (heap world3)) 1%Z.

(** * Matrices as tables of an index function

    Every operation on buffers is characterised by what it does to the
    tabulated function. *)

Section MatrixFacts.
Context {A : Type}.
Implicit Types (m data : list (list A)) (f g : nat → nat → A).

Lemma has_shape_row nr nc m i row :
  has_shape nr nc m → m !! i = Some row → length row = nc.
Proof.
  intros [_ Hrows] Hi. exact (proj1 (Forall_lookup _ _) Hrows i row Hi).
Qed.

Lemma has_shape_is_row nr nc m i :
  has_shape nr nc m → i < nr → ∃ row, m !! i = Some row ∧ length row = nc.
Proof.
  intros Hm Hi. destruct (lookup_lt_is_Some_2 m i) as [row Hrow].
  { destruct Hm as [-> _]. exact Hi. }
  exists row. split; [exact Hrow | by eapply has_shape_row].
Qed.

Lemma cell_row m i j row : m !! i = Some row → cell m i j = row !! j.
Proof. unfold cell. by intros ->. Qed.

Lemma has_shape_cell nr nc m i j :
  has_shape nr nc m → i < nr → j < nc → is_Some (cell m i j).
Proof.
  intros Hm Hi Hj. destruct (has_shape_is_row _ _ _ _ Hm Hi) as (row & Hrow & Hlen).
  rewrite (cell_row _ _ _ _ Hrow). apply lookup_lt_is_Some. lia.
Qed.

Lemma tabulates_entry d nr nc m :
  has_shape nr nc m → tabulates nr nc (entry d m) m.
Proof.
  intros Hm. split; [exact Hm|]. intros i j Hi Hj. unfold entry.
  by destruct (has_shape_cell _ _ _ _ _ Hm Hi Hj) as [x ->].
Qed.

Lemma tabulates_ext nr nc f g m :
  (∀ i j, i < nr → j < nc → f i j = g i j) →
  tabulates nr nc f m → tabulates nr nc g m.
Proof.
  intros Hfg [Hm Hf]. split; [exact Hm|].
  intros i j Hi Hj. rewrite <- Hfg by assumption. by apply Hf.
Qed.

(** A shape and an index function determine the matrix. *)
Lemma tabulates_inj nr nc f m1 m2 :
  tabulates nr nc f m1 → tabulates nr nc f m2 → m1 = m2.
Proof.
  intros [H1 F1] [H2 F2].
  apply (list_eq_same_length _ _ nr); [apply H2 | apply H1 |].
  intros i r1 r2 Hi Hr1 Hr2.
  apply (list_eq_same_length _ _ nc);
    [exact (has_shape_row _ _ _ _ _ H2 Hr2)
    | exact (has_shape_row _ _ _ _ _ H1 Hr1) |].
  intros j x y Hj Hx Hy.
  specialize (F1 i j Hi Hj). specialize (F2 i j Hi Hj).
  rewrite (cell_row _ _ _ _ Hr1) in F1. rewrite (cell_row _ _ _ _ Hr2) in F2.
  congruence.
Qed.

(** *** Windows *)

Lemma window_shape R C r0 nr c0 nc m :
  has_shape R C m → r0 + nr ≤ R → c0 + nc ≤ C →
  has_shape nr nc (window r0 nr c0 nc m).
Proof.
  intros [Hlen Hrows] Hr Hc. unfold window. split.
  - rewrite length_fmap, length_take, length_drop. lia.
  - apply Forall_fmap, Forall_take, Forall_drop.
    eapply Forall_impl; [exact Hrows|]. intros row Hrow. simpl in *.
    rewrite length_take, length_drop. lia.
Qed.

Lemma cell_window r0 nr c0 nc m i j :
  i < nr → j < nc →
  cell (window r0 nr c0 nc m) i j = cell m (r0 + i) (c0 + j).
Proof.
  intros Hi Hj. unfold cell, window.
  rewrite list_lookup_fmap, lookup_take_lt, lookup_drop by assumption.
  destruct (m !! (r0 + i)) as [row|]; simpl; [|done].
  by rewrite lookup_take_lt, lookup_drop.
Qed.

Lemma window_full nr nc m : has_shape nr nc m → window 0 nr 0 nc m = m.
Proof.
  intros [Hlen Hrows]. unfold window.
  rewrite drop_0, take_ge by lia.
  rewrite <- (list_fmap_id m) at 2. apply Forall_fmap_ext.
  eapply Forall_impl; [exact Hrows|]. intros row Hrow. simpl in *.
  rewrite drop_0, take_ge by lia. done.
Qed.

(** *** Block assignment *)

Lemma blit_shape R C r0 c0 data m :
  has_shape R C m → has_shape R C (blit r0 c0 data m).
Proof.
  intros [Hlen Hrows]. unfold blit. split.
  - by rewrite length_inserts.
  - apply Forall_inserts; [exact Hrows|].
    apply Forall_lookup. intros i x Hx.
    apply lookup_zip_with_Some in Hx as (d & row & -> & _ & Hrow).
    rewrite length_inserts. rewrite lookup_drop in Hrow.
    exact (proj1 (Forall_lookup _ _) Hrows _ _ Hrow).
Qed.

Lemma tabulates_blit R C r0 nr c0 nc f g data m :
  tabulates R C f m → tabulates nr nc g data →
  r0 + nr ≤ R → c0 + nc ≤ C →
  tabulates R C (overlay r0 nr c0 nc g f) (blit r0 c0 data m).
Proof.
  intros [Hm Hf] [Hd Hg] Hr Hc. split; [by apply blit_shape|].
  intros i j Hi Hj. unfold overlay.
  destruct (has_shape_is_row _ _ _ _ Hm Hi) as (row & Hrow & Hlrow).
  assert (length m = R) as HlenR by apply Hm.
  assert (length data = nr) as Hlend by apply Hd.
  unfold cell at 1, blit.
  destruct (decide (r0 ≤ i < r0 + nr)) as [Hin|Hout].
  - destruct (has_shape_is_row _ _ _ (i - r0) Hd) as (d & Hdr & Hld); [lia|].
    rewrite list_lookup_inserts; cycle 1.
    { rewrite length_zip_with, length_drop. lia. }
    { lia. }
    rewrite lookup_zip_with, Hdr, lookup_drop. simpl.
    replace (r0 + (i - r0)) with i by lia. rewrite Hrow. simpl.
    destruct (decide (c0 ≤ j < c0 + nc)) as [Hjin|Hjout].
    + rewrite decide_True by done.
      rewrite list_lookup_inserts by lia.
      rewrite <- (cell_row _ _ _ _ Hdr). apply Hg; lia.
    + rewrite decide_False by tauto.
      rewrite <- (Hf i j Hi Hj), (cell_row _ _ _ _ Hrow).
      destruct (decide (j < c0)).
      * by apply list_lookup_inserts_lt.
      * apply list_lookup_inserts_ge. lia.
  - rewrite decide_False by tauto.
    rewrite <- (Hf i j Hi Hj). unfold cell.
    destruct (decide (i < r0)).
    + by rewrite list_lookup_inserts_lt.
    + rewrite list_lookup_inserts_ge; [done|].
      rewrite length_zip_with, length_drop. lia.
Qed.

Lemma tabulates_poke nr nc f m i0 j0 x :
  tabulates nr nc f m →
  tabulates nr nc (λ i j, if decide (i = i0 ∧ j = j0) then x else f i j)
    (poke i0 j0 x m).
Proof.
  intros [[Hlen Hrows] Hf]. unfold poke. split; [split|].
  - by rewrite length_alter.
  - apply Forall_alter; [exact Hrows|]. intros row _ Hrow.
    by rewrite length_insert.
  - intros i j Hi Hj. unfold cell. rewrite list_lookup_alter.
    specialize (Hf i j Hi Hj). unfold cell in Hf.
    destruct (decide (i0 = i)) as [->|Hne].
    + destruct (m !! i) as [row|] eqn:Hrow; [simpl in *|done].
      pose proof (proj1 (Forall_lookup _ _) Hrows _ _ Hrow) as Hl.
      simpl in Hl. destruct (decide (j = j0)) as [->|Hj0].
      * rewrite decide_True by done. apply list_lookup_insert_eq. lia.
      * rewrite decide_False by tauto.
        rewrite list_lookup_insert_ne by done. exact Hf.
    + rewrite decide_False by (intros [? ?]; congruence). exact Hf.
Qed.
End MatrixFacts.

Section ElementWise.
Context {A B C : Type}.

Lemma tabulates_mmap nr nc (h : A → B) f (m : list (list A)) :
  tabulates nr nc f m → tabulates nr nc (λ i j, h (f i j)) (mmap h m).
Proof.
  intros [[Hlen Hrows] Hf]. unfold mmap. split; [split|].
  - by rewrite length_fmap.
  - apply Forall_fmap. eapply Forall_impl; [exact Hrows|].
    intros row Hrow. simpl. by rewrite length_fmap.
  - intros i j Hi Hj. specialize (Hf i j Hi Hj). unfold cell in *.
    rewrite list_lookup_fmap.
    destruct (m !! i) as [row|]; simpl in *; [|done].
    by rewrite list_lookup_fmap, Hf.
Qed.

Lemma tabulates_mzip nr nc (h : A → B → C) f g
    (m1 : list (list A)) (m2 : list (list B)) :
  tabulates nr nc f m1 → tabulates nr nc g m2 →
  tabulates nr nc (λ i j, h (f i j) (g i j)) (mzip h m1 m2).
Proof.
  intros [[Hlen1 Hrows1] Hf] [[Hlen2 Hrows2] Hg]. unfold mzip.
  split; [split|].
  - rewrite length_zip_with. lia.
  - apply Forall_lookup. intros i x Hx.
    apply lookup_zip_with_Some in Hx as (r1 & r2 & -> & Hr1 & Hr2).
    rewrite length_zip_with.
    pose proof (proj1 (Forall_lookup _ _) Hrows1 _ _ Hr1) as H1.
    pose proof (proj1 (Forall_lookup _ _) Hrows2 _ _ Hr2) as H2.
    simpl in *. lia.
  - intros i j Hi Hj.
    specialize (Hf i j Hi Hj). specialize (Hg i j Hi Hj). unfold cell in *.
    rewrite lookup_zip_with.
    destruct (m1 !! i) as [r1|]; simpl in *; [|done].
    destruct (m2 !! i) as [r2|]; simpl in *; [|done].
    by rewrite lookup_zip_with, Hf, Hg.
Qed.
End ElementWise.

(** * Slices and indices on an axis of known length *)

Lemma clip_le len i : clip len i ≤ len.
Proof. unfold clip. destruct (i <? 0)%Z eqn:E; lia. Qed.

Lemma slice_range_fits len s lo cnt :
  slice_range len s = (lo, cnt) → lo + cnt ≤ len.
Proof.
  destruct s as [[start|] [stop|]]; unfold slice_range; simpl;
    intros [= <- <-];
    repeat match goal with
           | |- context [clip len ?i] => pose proof (clip_le len i);
                                         generalize dependent (clip len i)
           end; intros; lia.
Qed.

(** [0:-2], [1:-1] and [2:] all select [len - 2] elements. *)
Lemma slice_range_top len : slice_range len (sl 0 (-2)) = (0, len - 2).
Proof.
  unfold slice_range, clip, sl, from.
  cbn [fst snd from_option Z.ltb Z.compare]. f_equal; lia.
Qed.

Lemma slice_range_mid len :
  slice_range len (sl 1 (-1)) = (Nat.min 1 len, len - 2).
Proof.
  unfold slice_range, clip, sl, from.
  cbn [fst snd from_option Z.ltb Z.compare]. f_equal; lia.
Qed.

Lemma slice_range_bot len :
  slice_range len (from 2) = (Nat.min 2 len, len - 2).
Proof.
  unfold slice_range, clip, sl, from.
  cbn [fst snd from_option Z.ltb Z.compare]. f_equal; lia.
Qed.

Lemma index_nonneg len (i : nat) :
  i < len → index len (Z.of_nat i) = inr i.
Proof.
  intros Hi. unfold index.
  destruct (Z.of_nat i <? 0)%Z eqn:E; [lia|].
  rewrite decide_True by lia. f_equal. lia.
Qed.

Lemma index_from_end len (i : nat) :
  0 < i ≤ len → index len (- Z.of_nat i) = inr (len - i).
Proof.
  intros Hi. unfold index.
  destruct (- Z.of_nat i <? 0)%Z eqn:E; [|lia].
  rewrite decide_True by lia. f_equal. lia.
Qed.

(** * Reasoning about computations *)

Section Logic.
Context {F G : Type} `{!Scalar F, !RandomSource G F}.
Implicit Types (w : world F G) (v x y Z : ndarray) (f g : nat → nat → F).

Lemma outcome_bind {A B} (c : M F G A) (k : A → M F G B) w
    (Q : A → world F G → Prop) (Φ : exn + B * world F G → Prop) :
  returns c w Q → (∀ a w', Q a w' → outcome (k a) w' Φ) →
  outcome (c ≫= k) w Φ.
Proof.
  intros (a & w' & Hc & HQ) Hk. unfold outcome, mbind, M_bind.
  rewrite Hc. exact (Hk a w' HQ).
Qed.

Lemma returns_ret {A} (a : A) w (Q : A → world F G → Prop) :
  Q a w → returns (mret a) w Q.
Proof. intros HQ. by exists a, w. Qed.

Lemma returns_bind {A B} (c : M F G A) (k : A → M F G B) w
    (Q : A → world F G → Prop) (R : B → world F G → Prop) :
  returns c w Q → (∀ a w', Q a w' → returns (k a) w' R) →
  returns (c ≫= k) w R.
Proof.
  intros (a & w' & Hc & HQ) Hk.
  destruct (Hk a w' HQ) as (b & w'' & Hkb & HR).
  exists b, w''. split; [|exact HR].
  unfold mbind, M_bind. by rewrite Hc.
Qed.

Lemma returns_mono {A} (c : M F G A) w (Q R : A → world F G → Prop) :
  returns c w Q → (∀ a w', Q a w' → R a w') → returns c w R.
Proof. intros (a & w' & Hc & HQ) HQR. exists a, w'. eauto. Qed.

Lemma returns_lift {A} (r : exn + A) a w (Q : A → world F G → Prop) :
  r = inr a → Q a w → returns (lift r) w Q.
Proof. intros -> HQ. by exists a, w. Qed.

(** *** Frames *)

Lemma preserves_refl L w : preserves L w w.
Proof. by split. Qed.

Lemma preserves_trans L1 L2 L w1 w2 w3 :
  preserves L1 w1 w2 → preserves L2 w2 w3 → L1 ⊆ L → L2 ⊆ L →
  preserves L w1 w3.
Proof.
  intros [Hr1 H1] [Hr2 H2] HL1 HL2. split; [congruence|].
  intros l m Hl Hm. apply H2; [set_solver|]. apply H1; [set_solver|done].
Qed.

Lemma extends_trans w1 w2 w3 :
  preserves ∅ w1 w2 → preserves ∅ w2 w3 → preserves ∅ w1 w3.
Proof. intros H1 H2. by eapply preserves_trans. Qed.

Lemma extends_fresh w w' l :
  preserves ∅ w w' → heap w' !! l = None → heap w !! l = None.
Proof.
  intros [_ Hp] Hl. destruct (heap w !! l) as [m|] eqn:E; [|done].
  apply Hp in E; [congruence | set_solver].
Qed.

Lemma preserves_insert w l m L :
  l ∈ L ∨ heap w !! l = None →
  preserves L w (World (<[l:=m]> (heap w)) (rng w)).
Proof.
  intros Hl. split; [done|]. intros l' m' Hl' Hm'. simpl.
  rewrite lookup_insert_ne; [done|]. intros ->.
  destruct Hl as [?|Hnone]; [done|congruence].
Qed.

Lemma reads_preserves L w w' v f :
  preserves L w w' → reads w v f → base v ∉ L → reads w' v f.
Proof.
  intros [_ Hp] (m & R & C & Hm & Hrest) Hv.
  exists m, R, C. split; [by apply Hp | exact Hrest].
Qed.

Lemma owns_preserves L w w' Z f :
  preserves L w w' → owns w Z f → base Z ∉ L → owns w' Z f.
Proof.
  intros [_ Hp] (Hr & Hc & m & Hm & Hf) HZ.
  split; [done|]. split; [done|]. exists m. split; [by apply Hp | done].
Qed.

Lemma reads_ext w v f g :
  (∀ i j, i < nrows v → j < ncols v → f i j = g i j) →
  reads w v f → reads w v g.
Proof.
  intros Hfg (m & R & C & Hm & Hs & Hr & Hc & Hf).
  exists m, R, C. split_and!; try done. by eapply tabulates_ext.
Qed.

Lemma owns_ext w Z f g :
  (∀ i j, i < nrows Z → j < ncols Z → f i j = g i j) →
  owns w Z f → owns w Z g.
Proof.
  intros Hfg (Hr & Hc & m & Hm & Hf).
  split; [done|]. split; [done|]. exists m. split; [done|].
  by eapply tabulates_ext.
Qed.

Lemma owns_reads w Z f : owns w Z f → reads w Z f.
Proof.
  intros (Hr & Hc & m & Hm & Hf).
  exists m, (nrows Z), (ncols Z). rewrite Hr, Hc.
  split_and!; try done; try apply Hf; try lia.
  by rewrite window_full by apply Hf.
Qed.

(** Any block of a readable view is readable, through a view onto the
    same buffer. *)
Lemma reads_block w v f r nr c nc :
  reads w v f → r + nr ≤ nrows v → c + nc ≤ ncols v →
  reads w (NDArray (base v) (row0 v + r) nr (col0 v + c) nc)
    (λ i j, f (r + i) (c + j)).
Proof.
  intros (m & R & C & Hm & Hs & Hr & Hc & [_ Hf]) Hnr Hnc.
  exists m, R, C. simpl. split_and!; try done; try lia.
  split; [eapply window_shape; [exact Hs | lia | lia]|].
  intros i j Hi Hj. rewrite cell_window by assumption.
  rewrite <- (Hf (r + i) (c + j)) by lia.
  rewrite cell_window by lia. f_equal; lia.
Qed.

Lemma reads_subview w v f rs cs :
  reads w v f →
  reads w (subview v rs cs)
    (λ i j, f ((slice_range (nrows v) rs).1 + i)
              ((slice_range (ncols v) cs).1 + j)).
Proof.
  intros Hv. unfold subview.
  destruct (slice_range (nrows v) rs) as [r nr] eqn:Er.
  destruct (slice_range (ncols v) cs) as [c nc] eqn:Ec. simpl.
  apply reads_block; [exact Hv | by eapply slice_range_fits..].
Qed.
End Logic.

(** * The NumPy primitives *)

Section Primitives.
Context {F G : Type} `{!Scalar F, !RandomSource G F}.
Implicit Types (w : world F G) (v x y Z : ndarray) (f g : nat → nat → F).

Lemma owns_allocated w Z f : owns w Z f → is_Some (heap w !! base Z).
Proof. intros (_ & _ & m & Hm & _). by exists m. Qed.

Lemma fetch_returns w v f :
  reads w v f →
  returns (fetch v) w
    (λ a w', w' = w ∧ tabulates (nrows v) (ncols v) f a).
Proof.
  intros (m & R & C & Hm & _ & _ & _ & Hf).
  eexists _, w. unfold fetch. rewrite Hm. done.
Qed.

Lemma alloc_returns w nr nc m f :
  tabulates nr nc f m →
  returns (alloc nr nc m) w
    (λ r w', preserves ∅ w w' ∧ heap w !! base r = None ∧
             shape r = (nr, nc) ∧ owns w' r f).
Proof.
  intros Hf. eexists _, _. split; [reflexivity|]. simpl.
  assert (heap w !! fresh (dom (heap w)) = None) as Hfresh.
  { apply not_elem_of_dom, is_fresh. }
  split_and!; try done.
  - apply preserves_insert. by right.
  - split; [done|]. split; [done|]. simpl.
    exists m. by rewrite lookup_insert_eq.
Qed.

(** The result of an element-wise operation is a new array: nothing
    that existed is written. *)
Lemma ufunc1_returns (h : F → F) w x f :
  reads w x f →
  returns (ufunc1 h x) w
    (λ r w', preserves ∅ w w' ∧ heap w !! base r = None ∧
             shape r = shape x ∧ owns w' r (λ i j, h (f i j))).
Proof.
  intros Hx. unfold ufunc1.
  eapply returns_bind; [by apply fetch_returns|].
  intros a ? [-> Ha]. simpl.
  apply alloc_returns. by apply tabulates_mmap.
Qed.

Lemma ufunc2_returns (h : F → F → F) w x y f g :
  reads w x f → reads w y g → shape x = shape y →
  returns (ufunc2 h x y) w
    (λ r w', preserves ∅ w w' ∧ heap w !! base r = None ∧
             shape r = shape x ∧ owns w' r (λ i j, h (f i j) (g i j))).
Proof.
  intros Hx Hy Hs. unfold ufunc2. rewrite decide_True by done.
  eapply returns_bind; [by apply fetch_returns|].
  intros a ? [-> Ha]. simpl.
  eapply returns_bind; [by apply fetch_returns|].
  intros b' ? [-> Hb]. simpl.
  apply alloc_returns. injection Hs as Hr Hc. rewrite <- Hr, <- Hc in Hb.
  by apply tabulates_mzip.
Qed.

(** Assignment through a view onto an owned buffer rewrites exactly
    the block the view covers, in that buffer only. *)
Lemma setitem_returns w Z dst src f g :
  owns w Z f → base dst = base Z →
  row0 dst + nrows dst ≤ nrows Z → col0 dst + ncols dst ≤ ncols Z →
  reads w src g → shape dst = shape src →
  returns (setitem dst src) w
    (λ _ w', preserves {[base Z]} w w' ∧
             owns w' Z (overlay (row0 dst) (nrows dst)
                                (col0 dst) (ncols dst) g f)).
Proof.
  intros (Hr & Hc & m & Hm & Hf) Hb Hrows Hcols Hsrc Hs.
  unfold setitem. rewrite decide_True by done.
  eapply returns_bind; [by apply fetch_returns|].
  intros data ? [-> Hdata]. simpl.
  exists tt. eexists. unfold store. rewrite Hb, Hm.
  split; [reflexivity|]. split.
  - apply preserves_insert. left. set_solver.
  - split; [done|]. split; [done|]. simpl.
    eexists. rewrite lookup_insert_eq. split; [done|].
    injection Hs as Hnr Hnc. rewrite <- Hnr, <- Hnc in Hdata.
    by apply tabulates_blit.
Qed.

Lemma row_at_returns w Z (i : Z.t) r :
  index (nrows Z) i = inr r →
  returns (row_at Z i) w
    (λ v w', w' = w ∧
             v = NDArray (base Z) (row0 Z + r) 1 (col0 Z) (ncols Z)).
Proof.
  intros Hi. unfold row_at.
  apply (returns_bind _ _ _ (λ a w', a = r ∧ w' = w));
    [by eapply returns_lift|].
  intros ? ? [-> ->]. by apply returns_ret.
Qed.

Lemma col_at_returns w Z (j : Z.t) c :
  index (ncols Z) j = inr c →
  returns (col_at Z j) w
    (λ v w', w' = w ∧
             v = NDArray (base Z) (row0 Z) (nrows Z) (col0 Z + c) 1).
Proof.
  intros Hj. unfold col_at.
  apply (returns_bind _ _ _ (λ a w', a = c ∧ w' = w));
    [by eapply returns_lift|].
  intros ? ? [-> ->]. by apply returns_ret.
Qed.

(** *** Random matrices *)

Lemma draw_row_length n (g0 : G) : length (draw_row n g0).1 = n.
Proof.
  revert g0. induction n as [|n IH]; intros g0; simpl; [done|].
  destruct (draw g0) as [x g1]. specialize (IH g1).
  destruct (draw_row n g1) as [xs g2]. simpl in *. by rewrite IH.
Qed.

Lemma draw_rows_shape nr nc (g0 : G) :
  has_shape nr nc (draw_rows nr nc g0).1.
Proof.
  revert g0. induction nr as [|nr IH]; intros g0; simpl.
  - split; [done|]. constructor.
  - pose proof (draw_row_length nc g0) as Hrow.
    destruct (draw_row nc g0) as [row g1]. specialize (IH g1).
    destruct (draw_rows nr nc g1) as [rows g2]. simpl in *.
    destruct IH as [Hlen Hrows]. split; [simpl; by rewrite Hlen|].
    by constructor.
Qed.

(** [np.random.rand(r, c)] with non-negative dimensions returns a new
    [r]×[c] array filled with the next samples of the generator. *)
Lemma rand_returns w (r c : Z.t) :
  (0 ≤ r)%Z → (0 ≤ c)%Z →
  returns (rand r c) w
    (λ Z w', shape Z = (Z.to_nat r, Z.to_nat c) ∧
             heap w !! base Z = None ∧
             (∀ l m, heap w !! l = Some m → heap w' !! l = Some m) ∧
             rng w' = (draw_rows (Z.to_nat r) (Z.to_nat c) (rng w)).2 ∧
             owns w' Z
               (entry (of_Q 0)
                  (draw_rows (Z.to_nat r) (Z.to_nat c) (rng w)).1)).
Proof.
  intros Hr Hc. unfold rand. rewrite decide_False by lia.
  unfold returns. cbv beta.
  pose proof (draw_rows_shape (Z.to_nat r) (Z.to_nat c) (rng w)) as Hs.
  destruct (draw_rows (Z.to_nat r) (Z.to_nat c) (rng w)) as [m g'].
  simpl in Hs.
  destruct (alloc_returns (World (heap w) g') _ _ m _
              (tabulates_entry (of_Q 0) _ _ _ Hs))
    as (Z & w' & Hrun & [Hg Hp] & Hfresh & Hshape & Hown).
  exists Z, w'. split; [exact Hrun|]. split_and!; try done.
  intros l m' Hl. apply Hp; [set_solver|done].
Qed.
End Primitives.

(** * The notebook, operation by operation *)

(** A location is outside of a set of modified locations. *)
Ltac outside :=
  first [ apply not_elem_of_empty
        | apply not_elem_of_singleton_2;
          first [ assumption | apply not_eq_sym; assumption ] ].

(** Facts about [w] are carried over to [w'] along [Hp : preserves _ w w']. *)
Ltac carry Hp :=
  repeat match goal with
    | H : reads ?w ?v ?f |- _ =>
        lazymatch type of Hp with
        | preserves _ w ?w' =>
            let H' := fresh H in
            assert (reads w' v f) as H'
              by (apply (reads_preserves _ _ _ _ _ Hp H); outside);
            clear H; rename H' into H
        end
    | H : owns ?w ?v ?f |- _ =>
        lazymatch type of Hp with
        | preserves _ w ?w' =>
            let H' := fresh H in
            assert (owns w' v f) as H'
              by (apply (owns_preserves _ _ _ _ _ Hp H); outside);
            clear H; rename H' into H
        end
    end.

(** Equalities between shapes, from the shapes recorded so far. *)
Ltac shapes :=
  repeat match goal with
    | H : shape ?a = _ |- context [shape ?a] => rewrite H
    end; reflexivity.

Section Notebook.
Context {F G : Type} `{!Scalar F, !RandomSource G F}.
Implicit Types (w : world F G) (v x y Z U V : ndarray).
Implicit Types (f g : nat → nat → F).

Lemma subview_shape v rs cs :
  shape (subview v rs cs) =
  ((slice_range (nrows v) rs).2, (slice_range (ncols v) cs).2).
Proof.
  unfold subview.
  destruct (slice_range (nrows v) rs), (slice_range (ncols v) cs). done.
Qed.

(** [laplacian] returns a new array, two smaller in each dimension,
    that holds the stencil of what is read through [Z]; it writes to no
    array that existed before the call. *)
Lemma laplacian_returns (dx : F) w Z f :
  reads w Z f →
  returns (laplacian dx Z) w
    (λ L w', preserves ∅ w w' ∧ heap w !! base L = None ∧
             shape L = (nrows Z - 2, ncols Z - 2) ∧
             owns w' L (lap dx f)).
Proof.
  intros HZ. unfold laplacian.
  pose proof (reads_subview _ _ _ (sl 0 (-2)) (sl 1 (-1)) HZ) as Htop.
  pose proof (reads_subview _ _ _ (sl 1 (-1)) (sl 0 (-2)) HZ) as Hleft.
  pose proof (reads_subview _ _ _ (from 2) (sl 1 (-1)) HZ) as Hbot.
  pose proof (reads_subview _ _ _ (sl 1 (-1)) (from 2) HZ) as Hright.
  pose proof (reads_subview _ _ _ (sl 1 (-1)) (sl 1 (-1)) HZ) as Hcen.
  pose proof (subview_shape Z (sl 0 (-2)) (sl 1 (-1))) as Stop.
  pose proof (subview_shape Z (sl 1 (-1)) (sl 0 (-2))) as Sleft.
  pose proof (subview_shape Z (from 2) (sl 1 (-1))) as Sbot.
  pose proof (subview_shape Z (sl 1 (-1)) (from 2)) as Sright.
  pose proof (subview_shape Z (sl 1 (-1)) (sl 1 (-1))) as Scen.
  rewrite ?slice_range_top, ?slice_range_mid, ?slice_range_bot in *.
  cbn [fst snd] in *.
  set (Ztop := subview Z (sl 0 (-2)) (sl 1 (-1))) in *.
  set (Zleft := subview Z (sl 1 (-1)) (sl 0 (-2))) in *.
  set (Zbottom := subview Z (from 2) (sl 1 (-1))) in *.
  set (Zright := subview Z (sl 1 (-1)) (from 2)) in *.
  set (Zcenter := subview Z (sl 1 (-1)) (sl 1 (-1))) in *.
  clearbody Ztop Zleft Zbottom Zright Zcenter. clear HZ.
  eapply returns_bind;
    [apply (ufunc2_returns fadd _ _ _ _ _ Htop Hleft); shapes|].
  intros s1 w1 (P1 & N1 & S1 & O1). pose proof (owns_reads _ _ _ O1) as R1.
  carry P1.
  eapply returns_bind;
    [apply (ufunc2_returns fadd _ _ _ _ _ R1 Hbot); shapes|].
  intros s2 w2 (P2 & N2 & S2 & O2). pose proof (owns_reads _ _ _ O2) as R2.
  carry P2.
  eapply returns_bind;
    [apply (ufunc2_returns fadd _ _ _ _ _ R2 Hright); shapes|].
  intros s3 w3 (P3 & N3 & S3 & O3). pose proof (owns_reads _ _ _ O3) as R3.
  carry P3.
  eapply returns_bind;
    [apply (ufunc1_returns (fmul (of_Z 4)) _ _ _ Hcen)|].
  intros c4 w4 (P4 & N4 & S4 & O4). pose proof (owns_reads _ _ _ O4) as R4.
  carry P4.
  eapply returns_bind;
    [apply (ufunc2_returns fsub _ _ _ _ _ R3 R4); shapes|].
  intros d w5 (P5 & N5 & S5 & O5). pose proof (owns_reads _ _ _ O5) as R5.
  carry P5. unfold np_divs.
  eapply returns_mono; [apply (ufunc1_returns _ _ _ _ R5)|].
  intros L w6 (P6 & N6 & S6 & O6).
  pose proof (extends_trans _ _ _ (extends_trans _ _ _
    (extends_trans _ _ _ (extends_trans _ _ _ P1 P2) P3) P4) P5) as P05.
  split_and!.
  - by eapply extends_trans.
  - by eapply extends_fresh.
  - congruence.
  - eapply owns_ext; [|exact O6]. intros i j Hi Hj. unfold lap.
    assert (shape L = (nrows Z - 2, ncols Z - 2)) as SL by congruence.
    injection SL as HLr HLc. rewrite HLr in Hi. rewrite HLc in Hj.
    rewrite (Nat.min_l 1 (nrows Z)), (Nat.min_l 1 (ncols Z)),
      (Nat.min_l 2 (nrows Z)), (Nat.min_l 2 (ncols Z)) by lia.
    done.
Qed.

(** *** The Neumann pass *)

Lemma index_inr_lt len (i : Z.t) r : index len i = inr r → r < len.
Proof.
  unfold index. case_decide as Hi; [|done]. intros [= <-].
  destruct (i <? 0)%Z; lia.
Qed.

(** [Z[k, :] = Z[i, :]] *)
Lemma copy_row_returns w Z f (i k : Z.t) (si di : nat) :
  owns w Z f → index (nrows Z) i = inr si → index (nrows Z) k = inr di →
  returns (src ← row_at Z i; dst ← row_at Z k; setitem dst src) w
    (λ _ w', preserves {[base Z]} w w' ∧
             owns w' Z (overlay di 1 0 (ncols Z) (λ a b, f (si + a) b) f)).
Proof.
  intros HZ Hi Hk.
  pose proof (index_inr_lt _ _ _ Hi) as Hsi.
  pose proof (index_inr_lt _ _ _ Hk) as Hdi.
  pose proof (reads_block _ _ _ si 1 0 (ncols Z) (owns_reads _ _ _ HZ))
    as Hsrc.
  destruct Z as [l r0 R c0 C]. pose proof HZ as (Hr0 & Hc0 & _).
  simpl in *. subst r0 c0. simpl in Hsrc.
  eapply returns_bind; [by apply row_at_returns|].
  intros src ? [-> ->]. simpl.
  eapply returns_bind; [by apply row_at_returns|].
  intros dst ? [-> ->]. simpl.
  eapply returns_mono.
  { eapply (setitem_returns _ _ _ _ _ _ HZ); simpl;
      [done | lia | lia | apply Hsrc; lia | done]. }
  intros _ w' [Hp Ho]. by split.
Qed.

(** [Z[:, k] = Z[:, j]] *)
Lemma copy_col_returns w Z f (j k : Z.t) (sj dj : nat) :
  owns w Z f → index (ncols Z) j = inr sj → index (ncols Z) k = inr dj →
  returns (src ← col_at Z j; dst ← col_at Z k; setitem dst src) w
    (λ _ w', preserves {[base Z]} w w' ∧
             owns w' Z (overlay 0 (nrows Z) dj 1 (λ a b, f a (sj + b)) f)).
Proof.
  intros HZ Hj Hk.
  pose proof (index_inr_lt _ _ _ Hj) as Hsj.
  pose proof (index_inr_lt _ _ _ Hk) as Hdj.
  pose proof (reads_block _ _ _ 0 (nrows Z) sj 1 (owns_reads _ _ _ HZ))
    as Hsrc.
  destruct Z as [l r0 R c0 C]. pose proof HZ as (Hr0 & Hc0 & _).
  simpl in *. subst r0 c0. simpl in Hsrc.
  eapply returns_bind; [by apply col_at_returns|].
  intros src ? [-> ->]. simpl.
  eapply returns_bind; [by apply col_at_returns|].
  intros dst ? [-> ->]. simpl.
  eapply returns_mono.
  { eapply (setitem_returns _ _ _ _ _ _ HZ); simpl;
      [done | lia | lia | apply Hsrc; lia | done]. }
  intros _ w' [Hp Ho]. by split.
Qed.

Lemma preserves_same L w1 w2 w3 :
  preserves L w1 w2 → preserves L w2 w3 → preserves L w1 w3.
Proof. intros H1 H2. by eapply preserves_trans. Qed.

(** On an array with at least two rows and two columns the Neumann
    pass succeeds, and writes to that array only. *)
Lemma neumann_returns w Z f :
  owns w Z f → 2 ≤ nrows Z → 2 ≤ ncols Z →
  returns (neumann Z) w
    (λ _ w', preserves {[base Z]} w w' ∧
             owns w' Z (mirror (nrows Z) (ncols Z) f)).
Proof.
  intros HZ HR HC. unfold neumann.
  eapply returns_bind.
  { apply (copy_row_returns _ _ _ 1 0 1 0 HZ);
      [apply (index_nonneg _ 1); lia | apply (index_nonneg _ 0); lia]. }
  intros _ w1 [P1 O1]. eapply returns_bind.
  { apply (copy_row_returns _ _ _ (-2) (-1) (nrows Z - 2) (nrows Z - 1) O1);
      [apply (index_from_end _ 2); lia | apply (index_from_end _ 1); lia]. }
  intros _ w2 [P2 O2]. eapply returns_bind.
  { apply (copy_col_returns _ _ _ 1 0 1 0 O2);
      [apply (index_nonneg _ 1); lia | apply (index_nonneg _ 0); lia]. }
  intros _ w3 [P3 O3]. eapply returns_mono.
  { apply (copy_col_returns _ _ _ (-2) (-1) (ncols Z - 2) (ncols Z - 1) O3);
      [apply (index_from_end _ 2); lia | apply (index_from_end _ 1); lia]. }
  intros _ w4 [P4 O4]. split.
  - exact (preserves_same _ _ _ _
             (preserves_same _ _ _ _ (preserves_same _ _ _ _ P1 P2) P3) P4).
  - exact O4.
Qed.

(** *** One iteration *)

Lemma preserves_step L L1 w1 w2 w3 :
  preserves L1 w1 w2 → L1 ⊆ L → preserves L w2 w3 → preserves L w1 w3.
Proof. intros H1 HL H2. by eapply preserves_trans. Qed.

(** The interior of a whole [n]×[n] array, as a view. *)
Lemma interior_view w Z f n :
  owns w Z f → shape Z = (n, n) →
  subview Z (sl 1 (-1)) (sl 1 (-1)) =
    NDArray (base Z) (Nat.min 1 n) (n - 2) (Nat.min 1 n) (n - 2) ∧
  reads w (NDArray (base Z) (Nat.min 1 n) (n - 2) (Nat.min 1 n) (n - 2))
    (λ i j, f (1 + i) (1 + j)).
Proof.
  intros HZ [= Hr Hc].
  pose proof (reads_block _ _ _ (Nat.min 1 n) (n - 2) (Nat.min 1 n) (n - 2)
                (owns_reads _ _ _ HZ)) as Hin.
  destruct HZ as (Hr0 & Hc0 & _). unfold subview.
  rewrite !slice_range_mid, Hr, Hc, Hr0, Hc0 in *.
  split; [done|]. eapply reads_ext; [|apply Hin; lia].
  intros i j Hi Hj. simpl in Hi, Hj.
  rewrite (Nat.min_l 1 n) by lia. done.
Qed.

Lemma overlay_interior n (g f : nat → nat → F) i j :
  overlay (Nat.min 1 n) (n - 2) (Nat.min 1 n) (n - 2) g f i j =
  overlay 1 (n - 2) 1 (n - 2) g f i j.
Proof.
  unfold overlay. destruct (decide (2 ≤ n)).
  - by rewrite (Nat.min_l 1 n) by lia.
  - rewrite !decide_False by lia. done.
Qed.

(** The loop body up to the boundary pass: the two right-hand sides
    are computed from the fields as they are on entry, and only then
    are the two interiors overwritten.  Whatever the boundary pass does
    next decides the outcome of the iteration. *)
Lemma step_outcome (p : params F) w U V (u v : nat → nat → F) n
    (Φ : exn + () * world F G → Prop) :
  owns w U u → owns w V v → base U ≠ base V →
  shape U = (n, n) → shape V = (n, n) →
  (∀ w', preserves {[base U; base V]} w w' →
         owns w' U (overlay 1 (n - 2) 1 (n - 2)
                      (rhs_U (p_a p) (p_k p) (p_dx p) (p_dt p) u v) u) →
         owns w' V (overlay 1 (n - 2) 1 (n - 2)
                      (rhs_V (p_b p) (p_tau p) (p_dx p) (p_dt p) u v) v) →
         outcome (for_each [U; V] neumann) w' Φ) →
  outcome (step p U V) w Φ.
Proof.
  intros OU OV Hne SU SV HΦ. unfold step.
  destruct (interior_view _ _ _ _ OU SU) as [-> RUc].
  destruct (interior_view _ _ _ _ OV SV) as [-> RVc].
  pose proof SU as [= HUr HUc]. pose proof SV as [= HVr HVc].
  set (Uc := NDArray (base U) _ (n - 2) _ (n - 2)) in *.
  set (Vc := NDArray (base V) _ (n - 2) _ (n - 2)) in *.
  assert (shape Uc = (n - 2, n - 2)) as SUc by done.
  assert (shape Vc = (n - 2, n - 2)) as SVc by done.
  pose proof (owns_reads _ _ _ OU) as RU.
  pose proof (owns_reads _ _ _ OV) as RV.
  eapply outcome_bind; [apply (laplacian_returns _ _ _ _ RU)|].
  intros deltaU w1 (P1 & _ & SdU & OdU).
  pose proof (owns_reads _ _ _ OdU) as RdU. clear OdU. carry P1.
  eapply outcome_bind; [apply (laplacian_returns _ _ _ _ RV)|].
  intros deltaV w2 (P2 & _ & SdV & OdV). clear RU RV.
  pose proof (owns_reads _ _ _ OdV) as RdV. clear OdV. carry P2.
  rewrite HUr, HUc in SdU. rewrite HVr, HVc in SdV.
  (* the right-hand side for U *)
  eapply outcome_bind; [apply (ufunc1_returns (fmul (p_a p)) _ _ _ RdU)|].
  intros u1 w3 (P3 & _ & S3 & O3). clear RdU.
  pose proof (owns_reads _ _ _ O3) as R3. clear O3. carry P3.
  eapply outcome_bind;
    [apply (ufunc2_returns fadd _ _ _ _ _ R3 RUc); shapes|].
  intros u2 w4 (P4 & _ & S4 & O4). clear R3.
  pose proof (owns_reads _ _ _ O4) as R4. clear O4. carry P4.
  eapply outcome_bind;
    [apply (ufunc1_returns (λ e, fpow e 3) _ _ _ RUc)|].
  intros u3 w5 (P5 & _ & S5 & O5).
  pose proof (owns_reads _ _ _ O5) as R5. clear O5. carry P5.
  eapply outcome_bind;
    [apply (ufunc2_returns fsub _ _ _ _ _ R4 R5); shapes|].
  intros u4 w6 (P6 & _ & S6 & O6). clear R4 R5.
  pose proof (owns_reads _ _ _ O6) as R6. clear O6. carry P6.
  eapply outcome_bind;
    [apply (ufunc2_returns fsub _ _ _ _ _ R6 RVc); shapes|].
  intros u5 w7 (P7 & _ & S7 & O7). clear R6.
  pose proof (owns_reads _ _ _ O7) as R7. clear O7. carry P7.
  eapply outcome_bind;
    [apply (ufunc1_returns (λ e, fadd e (p_k p)) _ _ _ R7)|].
  intros u6 w8 (P8 & _ & S8 & O8). clear R7.
  pose proof (owns_reads _ _ _ O8) as R8. clear O8. carry P8.
  eapply outcome_bind; [apply (ufunc1_returns (fmul (p_dt p)) _ _ _ R8)|].
  intros u7 w9 (P9 & _ & S9 & O9). clear R8.
  pose proof (owns_reads _ _ _ O9) as R9. clear O9. carry P9.
  eapply outcome_bind;
    [apply (ufunc2_returns fadd _ _ _ _ _ RUc R9); shapes|].
  intros newU w10 (P10 & _ & SnU & OnU). clear R9.
  pose proof (owns_reads _ _ _ OnU) as RnU. clear OnU. carry P10.
  (* the right-hand side for V *)
  eapply outcome_bind; [apply (ufunc1_returns (fmul (p_b p)) _ _ _ RdV)|].
  intros v1 w11 (P11 & _ & S11 & O11). clear RdV.
  pose proof (owns_reads _ _ _ O11) as R11. clear O11. carry P11.
  eapply outcome_bind;
    [apply (ufunc2_returns fadd _ _ _ _ _ R11 RUc); shapes|].
  intros v2 w12 (P12 & _ & S12 & O12). clear R11.
  pose proof (owns_reads _ _ _ O12) as R12. clear O12. carry P12.
  eapply outcome_bind;
    [apply (ufunc2_returns fsub _ _ _ _ _ R12 RVc); shapes|].
  intros v3 w13 (P13 & _ & S13 & O13). clear R12.
  pose proof (owns_reads _ _ _ O13) as R13. clear O13. carry P13.
  eapply outcome_bind; [apply (ufunc1_returns (fmul (p_dt p)) _ _ _ R13)|].
  intros v4 w14 (P14 & _ & S14 & O14). clear R13.
  pose proof (owns_reads _ _ _ O14) as R14. clear O14. carry P14.
  eapply outcome_bind;
    [apply (ufunc1_returns (λ e, fdiv e (p_tau p)) _ _ _ R14)|].
  intros v5 w15 (P15 & _ & S15 & O15). clear R14.
  pose proof (owns_reads _ _ _ O15) as R15. clear O15. carry P15.
  eapply outcome_bind;
    [apply (ufunc2_returns fadd _ _ _ _ _ RVc R15); shapes|].
  intros newV w16 (P16 & NnV & SnV & OnV). clear R15.
  assert (base newV ≠ base U) as HnV.
  { intros E. destruct (owns_allocated _ _ _ OU) as [m Hm]. congruence. }
  pose proof (owns_reads _ _ _ OnV) as RnV. clear OnV. carry P16.
  (* the two assignments *)
  eapply outcome_bind.
  { eapply (setitem_returns _ U Uc newU _ _ OU); cbn -[Nat.min];
      [done | lia | lia | exact RnU | shapes]. }
  intros _ w17 (P17 & OU'). clear OU RnU. rename OU' into OU. carry P17.
  eapply outcome_bind.
  { eapply (setitem_returns _ V Vc newV _ _ OV); cbn -[Nat.min];
      [done | lia | lia | exact RnV | shapes]. }
  intros _ w18 (P18 & OV'). clear OV RnV. rename OV' into OV. carry P18.
  apply HΦ.
  - clear HΦ RUc RVc OU OV.
    repeat (eapply preserves_step; [eassumption | set_solver |]).
    apply preserves_refl.
  - eapply owns_ext; [|exact OU]. intros i j _ _. apply overlay_interior.
  - eapply owns_ext; [|exact OV]. intros i j _ _. apply overlay_interior.
Qed.

Lemma step_returns (p : params F) w U V (u v : nat → nat → F) n :
  owns w U u → owns w V v → base U ≠ base V →
  shape U = (n, n) → shape V = (n, n) → 2 ≤ n →
  returns (step p U V) w
    (λ _ w', preserves {[base U; base V]} w w' ∧
             owns w' U (step_U (p_a p) (p_k p) (p_dx p) (p_dt p) n u v) ∧
             owns w' V (step_V (p_b p) (p_tau p) (p_dx p) (p_dt p) n u v)).
Proof.
  intros OU OV Hne SU SV Hn.
  match goal with |- returns _ _ ?Q0 => set (Q := Q0) end.
  change (outcome (step p U V) w (λ r, ∃ a w', r = inr (a, w') ∧ Q a w')).
  apply (step_outcome _ _ _ _ _ _ _ _ OU OV Hne SU SV).
  intros w1 P1 OU' OV'.
  change (returns (for_each [U; V] neumann) w1 Q). subst Q.
  pose proof SU as [= HUr HUc]. pose proof SV as [= HVr HVc].
  simpl for_each.
  eapply returns_bind; [apply (neumann_returns _ _ _ OU'); lia|].
  intros _ w2 (P2 & OU''). carry P2.
  eapply returns_bind; [apply (neumann_returns _ _ _ OV'); lia|].
  intros _ w3 (P3 & OV''). carry P3.
  apply returns_ret. split_and!.
  - clear OU'' OV''.
    repeat (eapply preserves_step; [eassumption | set_solver |]).
    apply preserves_refl.
  - rewrite HUr, HUc in OU''. exact OU''.
  - rewrite HVr, HVc in OV''. exact OV''.
Qed.
End Notebook.

(** * The boundary pass, entry by entry *)

Lemma src_lt n i : 2 ≤ n → i < n → src n i < n.
Proof. intros Hn Hi. unfold src. repeat case_decide; lia. Qed.

Lemma src_interior n i : 1 ≤ i → i + 2 ≤ n → src n i = i.
Proof. intros H1 H2. unfold src. repeat case_decide; lia. Qed.

Lemma src_first n : 2 ≤ n → src n 0 = src n 1.
Proof. intros Hn. unfold src. repeat case_decide; lia. Qed.

Lemma src_last n : 2 ≤ n → src n (n - 1) = src n (n - 2).
Proof. intros Hn. unfold src. repeat case_decide; lia. Qed.

Section Mirror.
Context {A : Type}.
Implicit Types f : nat → nat → A.

Lemma rows_pass_src R C f i j :
  2 ≤ R → i < R → j < C → rows_pass R C f i j = f (src R i) j.
Proof.
  intros HR Hi Hj. unfold rows_pass, overlay, src.
  repeat case_decide; try lia; f_equal; lia.
Qed.

Lemma cols_pass_src R C f i j :
  2 ≤ C → i < R → j < C → cols_pass R C f i j = f i (src C j).
Proof.
  intros HC Hi Hj. unfold cols_pass, overlay, src.
  repeat case_decide; try lia; f_equal; lia.
Qed.

(** After the pass every entry holds the value that was at its source. *)
Lemma mirror_src R C f i j :
  2 ≤ R → 2 ≤ C → i < R → j < C →
  mirror R C f i j = f (src R i) (src C j).
Proof.
  intros HR HC Hi Hj.
  unfold mirror. rewrite cols_pass_src by assumption.
  apply rows_pass_src; [assumption..|]. by apply src_lt.
Qed.
End Mirror.

(** * The table of an index function *)

Lemma tabulates_tabulate {A} nr nc (f : nat → nat → A) :
  tabulates nr nc f (tabulate nr nc f).
Proof.
  unfold tabulate. split; [split|].
  - by rewrite length_fmap, length_seq.
  - apply Forall_fmap, Forall_forall. intros i _. simpl.
    by rewrite length_fmap, length_seq.
  - intros i j Hi Hj. unfold cell.
    rewrite list_lookup_fmap, lookup_seq_lt by done. simpl.
    by rewrite list_lookup_fmap, lookup_seq_lt by done.
Qed.

Lemma tabulates_unique {A} nr nc (f : nat → nat → A) m :
  tabulates nr nc f m → m = tabulate nr nc f.
Proof.
  intros Hm. eapply tabulates_inj; [exact Hm | apply tabulates_tabulate].
Qed.

Lemma tabulate_ext {A} nr nc (f g : nat → nat → A) :
  (∀ i j, i < nr → j < nc → f i j = g i j) →
  tabulate nr nc f = tabulate nr nc g.
Proof.
  intros Hfg. apply (tabulates_inj nr nc g); [|apply tabulates_tabulate].
  eapply tabulates_ext; [exact Hfg | apply tabulates_tabulate].
Qed.

(** * The loop *)

Section Loop.
Context {F G : Type} `{!Scalar F, !RandomSource G F}.
Implicit Types (w : world F G) (Z U V : ndarray).
Implicit Types (u v f : nat → nat → F).

(** The buffer of a whole array is the table of what it holds. *)
Lemma owns_buffer w Z f nr nc :
  owns w Z f → shape Z = (nr, nc) →
  heap w !! base Z = Some (tabulate nr nc f).
Proof.
  intros (_ & _ & m & Hm & Hf) [= <- <-].
  by rewrite Hm, (tabulates_unique _ _ _ _ Hf).
Qed.

Lemma owns_tabulate w Z f :
  row0 Z = 0 → col0 Z = 0 →
  heap w !! base Z = Some (tabulate (nrows Z) (ncols Z) f) →
  owns w Z f.
Proof.
  intros Hr Hc Hm. split; [done|]. split; [done|].
  eexists. split; [exact Hm|]. apply tabulates_tabulate.
Qed.

(** On grids with at least two rows and columns the loop runs all its
    iterations, and writes to the two fields only. *)
Lemma loop_returns (p : params F) U V n t : ∀ w u v,
  owns w U u → owns w V v → base U ≠ base V →
  shape U = (n, n) → shape V = (n, n) → 2 ≤ n →
  returns (repeat_body t (step p U V)) w
    (λ _ w', preserves {[base U; base V]} w w' ∧
             owns w' U (Nat.iter t (advance p n) (u, v)).1 ∧
             owns w' V (Nat.iter t (advance p n) (u, v)).2).
Proof.
  induction t as [|t IH]; intros w u v OU OV Hne SU SV Hn.
  - apply returns_ret. split_and!; [apply preserves_refl|done..].
  - cbn [repeat_body]. eapply returns_bind; [by eapply step_returns|].
    intros _ w1 (P1 & OU1 & OV1).
    eapply returns_mono; [by apply (IH w1 _ _ OU1 OV1)|].
    intros _ w2 (P2 & OU2 & OV2). rewrite Nat.iter_succ_r.
    split_and!; [by eapply preserves_same|done..].
Qed.

(** On a smaller grid the first boundary pass raises [IndexError]. *)
Lemma step_raises (p : params F) w U V u v n :
  owns w U u → owns w V v → base U ≠ base V →
  shape U = (n, n) → shape V = (n, n) → n < 2 →
  step p U V w = inl IndexError.
Proof.
  intros OU OV Hne SU SV Hn.
  change (outcome (step p U V) w (λ r, r = inl IndexError)).
  apply (step_outcome _ _ _ _ _ _ _ _ OU OV Hne SU SV).
  intros w' _ _ _. injection SU as HUr _.
  unfold outcome, for_each, neumann, row_at, index, mbind, M_bind, lift.
  rewrite HUr. simpl. rewrite decide_False by lia. done.
Qed.
End Loop.

(** * Properties of the Laplacian operator *)

Section LaplacianProperties.
Context {F G : Type} `{!Scalar F, !RandomSource G F}.
Implicit Types (w : world F G) (Z : ndarray) (z : nat → nat → F).

(** The array returned by [laplacian] can be fetched, and holds the
    stencil in the order of the source. *)
Lemma laplacian_table (dx : F) w Z z :
  reads w Z z →
  returns (laplacian dx Z) w
    (λ L w', shape L = (nrows Z - 2, ncols Z - 2) ∧
             heap w' !! base L =
               Some (tabulate (nrows Z - 2) (ncols Z - 2) (lap dx z)) ∧
             fetch L w' =
               inr (tabulate (nrows Z - 2) (ncols Z - 2) (lap dx z), w')).
Proof.
  intros HZ. eapply returns_mono; [by apply laplacian_returns|].
  intros L w' (_ & _ & SL & OL). simpl.
  pose proof (owns_buffer _ _ _ _ _ OL SL) as HL.
  split_and!; [done..|].
  destruct (fetch_returns _ _ _ (owns_reads _ _ _ OL))
    as (a & ? & Hrun & -> & Ha).
  rewrite Hrun. injection SL as HLr HLc. rewrite HLr, HLc in Ha.
  by rewrite (tabulates_unique _ _ _ _ Ha).
Qed.

(** C1. For a square [n]×[n] field [Z] with [n ≥ 3], whose entries are
    [z i j], [laplacian(Z)] returns an [(n-2)]×[(n-2)] array [L] with
    [L[i-1,j-1] = (Z[i-1,j] + Z[i+1,j] + Z[i,j-1] + Z[i,j+1] - 4*Z[i,j])
    / dx²] for all interior indices [1 ≤ i, j ≤ n-2].  The source sums
    the neighbours in the order top, left, bottom, right; the order of
    the claim is reached when addition is commutative and
    associative. *)
Theorem C1_laplacian_five_point (dx : F) w Z z (n : nat) :
  (∀ x y : F, fadd x y = fadd y x) →
  (∀ x y t : F, fadd (fadd x y) t = fadd x (fadd y t)) →
  reads w Z z → shape Z = (n, n) → 3 ≤ n →
  returns (laplacian dx Z) w
    (λ L w',
       shape L = (n - 2, n - 2) ∧
       ∃ l, fetch L w' = inr (l, w') ∧ has_shape (n - 2) (n - 2) l ∧
         ∀ i j, 1 ≤ i ≤ n - 2 → 1 ≤ j ≤ n - 2 →
           cell l (i - 1) (j - 1) =
           Some (fdiv
                   (fsub (fadd (fadd (fadd (z (i - 1) j) (z (i + 1) j))
                                     (z i (j - 1)))
                               (z i (j + 1)))
                         (fmul (of_Z 4) (z i j)))
                   (fpow dx 2))).
Proof.
  intros Hcomm Hassoc HZ [= Hr Hc] Hn.
  eapply returns_mono; [by apply laplacian_table|].
  intros L w' (SL & _ & HL). simpl. rewrite Hr, Hc in *.
  split; [done|]. eexists. split; [exact HL|].
  destruct (tabulates_tabulate (n - 2) (n - 2) (lap dx z)) as [Hs Hcell].
  split; [done|]. intros i j Hi Hj.
  rewrite Hcell by lia. unfold lap.
  replace (1 + (i - 1)) with i by lia. replace (1 + (j - 1)) with j by lia.
  replace (2 + (i - 1)) with (i + 1) by lia.
  replace (2 + (j - 1)) with (j + 1) by lia.
  do 4 f_equal. rewrite !Hassoc. f_equal. apply Hcomm.
Qed.

(** C7. [laplacian(Z)] has no side effects: its result is a new array,
    every array that existed before the call, [Z] and its boundary rows
    and columns included, holds after the call what it held before, and
    the random generator is not advanced. *)
Theorem C7_laplacian_no_side_effects (dx : F) w Z z :
  reads w Z z →
  returns (laplacian dx Z) w
    (λ L w',
       heap w !! base L = None ∧
       rng w' = rng w ∧
       (∀ l m, heap w !! l = Some m → heap w' !! l = Some m) ∧
       ∃ a, fetch Z w = inr (a, w) ∧ fetch Z w' = inr (a, w')).
Proof.
  intros HZ. eapply returns_mono; [by apply laplacian_returns|].
  intros L w' (P & NL & _ & _). simpl.
  destruct (fetch_returns _ _ _ HZ) as (a & ? & Hrun & -> & Ha).
  pose proof HZ as HZ'. carry P.
  destruct (fetch_returns _ _ _ HZ') as (a' & ? & Hrun' & -> & Ha').
  destruct P as [Hg Hp]. split_and!; try done.
  - intros l m Hl. apply Hp; [set_solver|done].
  - exists a. split; [done|]. rewrite Hrun'. do 2 f_equal.
    by eapply tabulates_inj.
Qed.
End LaplacianProperties.

(** * Properties of the boundary pass *)

Section BoundaryProperties.
Context {F G : Type} `{!Scalar F, !RandomSource G F}.
Implicit Types (w : world F G) (Z U V : ndarray).
Implicit Types (u v g : nat → nat → F).

Lemma owns_mirrored w Z g n :
  owns w Z (mirror n n g) → shape Z = (n, n) → 2 ≤ n → mirrored w Z n.
Proof.
  intros HZ SZ Hn. exists (tabulate n n (mirror n n g)), g.
  split; [by apply owns_buffer|].
  destruct (tabulates_tabulate n n (mirror n n g)) as [Hs Hcell].
  split; [done|]. intros i j Hi Hj.
  by rewrite Hcell, mirror_src by lia.
Qed.

(** After any positive number of iterations both fields have just been
    through the boundary pass. *)
Lemma loop_mirrored (p : params F) w U V u v n t :
  owns w U u → owns w V v → base U ≠ base V →
  shape U = (n, n) → shape V = (n, n) → 2 ≤ n →
  returns (repeat_body (S t) (step p U V)) w
    (λ _ w', mirrored w' U n ∧ mirrored w' V n).
Proof.
  intros OU OV Hne SU SV Hn.
  eapply returns_mono; [by eapply loop_returns|].
  intros _ w' (_ & OU' & OV'). simpl in OU', OV'.
  split; by eapply owns_mirrored.
Qed.

Lemma rows_agree n (m : list (list F)) i1 i2 :
  has_shape n n m → i1 < n → i2 < n →
  (∀ j, j < n → cell m i1 j = cell m i2 j) → m !! i1 = m !! i2.
Proof.
  intros Hm H1 H2 Hcells.
  destruct (has_shape_is_row _ _ _ _ Hm H1) as (r1 & Hr1 & Hl1).
  destruct (has_shape_is_row _ _ _ _ Hm H2) as (r2 & Hr2 & Hl2).
  rewrite Hr1, Hr2. f_equal.
  apply list_eq. intros j. destruct (decide (j < n)) as [Hj|Hj].
  - rewrite <- (cell_row _ _ _ _ Hr1), <- (cell_row _ _ _ _ Hr2).
    by apply Hcells.
  - rewrite !(proj2 (lookup_ge_None _ _)) by lia. done.
Qed.

(** C2. After every iteration's boundary pass, for both fields: row 0
    equals row 1, row [n-1] equals row [n-2], column 0 equals column 1
    and column [n-1] equals column [n-2], as exact copies. *)
Theorem C2_boundary_rows_and_columns (p : params F) w U V u v n t :
  owns w U u → owns w V v → base U ≠ base V →
  shape U = (n, n) → shape V = (n, n) → 2 ≤ n →
  returns (repeat_body (S t) (step p U V)) w
    (λ _ w', ∀ Z, Z = U ∨ Z = V →
       ∃ m, heap w' !! base Z = Some m ∧ has_shape n n m ∧
         m !! 0 = m !! 1 ∧
         m !! (n - 1) = m !! (n - 2) ∧
         ∀ i, i < n →
           cell m i 0 = cell m i 1 ∧ cell m i (n - 1) = cell m i (n - 2)).
Proof.
  intros OU OV Hne SU SV Hn.
  eapply returns_mono; [by eapply loop_mirrored|].
  intros _ w' [HU HV] Z HZ.
  assert (mirrored w' Z n) as (m & g & Hm & Hs & Hcell)
    by (by destruct HZ as [-> | ->]).
  exists m. split_and!; try done.
  - apply (rows_agree n); [done | lia | lia |]. intros j Hj.
    rewrite !Hcell by lia. by rewrite src_first.
  - apply (rows_agree n); [done | lia | lia |]. intros j Hj.
    rewrite !Hcell by lia. by rewrite src_last.
  - intros i Hi. rewrite !Hcell by lia.
    by rewrite src_first, src_last.
Qed.

(** C9. After every iteration's boundary pass each corner entry of both
    fields equals its diagonal interior neighbour:
    [Z[0,0] = Z[1,1]], [Z[0,n-1] = Z[1,n-2]], [Z[n-1,0] = Z[n-2,1]] and
    [Z[n-1,n-1] = Z[n-2,n-2]]. *)
Theorem C9_corners_equal_diagonal_neighbours (p : params F)
    w U V u v n t :
  owns w U u → owns w V v → base U ≠ base V →
  shape U = (n, n) → shape V = (n, n) → 2 ≤ n →
  returns (repeat_body (S t) (step p U V)) w
    (λ _ w', ∀ Z, Z = U ∨ Z = V →
       ∃ m, heap w' !! base Z = Some m ∧ has_shape n n m ∧
         is_Some (cell m 0 0) ∧
         cell m 0 0 = cell m 1 1 ∧
         cell m 0 (n - 1) = cell m 1 (n - 2) ∧
         cell m (n - 1) 0 = cell m (n - 2) 1 ∧
         cell m (n - 1) (n - 1) = cell m (n - 2) (n - 2)).
Proof.
  intros OU OV Hne SU SV Hn.
  eapply returns_mono; [by eapply loop_mirrored|].
  intros _ w' [HU HV] Z HZ.
  assert (mirrored w' Z n) as (m & g & Hm & Hs & Hcell)
    by (by destruct HZ as [-> | ->]).
  exists m. split_and!; try done.
  - rewrite Hcell by lia. by eexists.
  - rewrite !Hcell by lia. by rewrite src_first.
  - rewrite !Hcell by lia. by rewrite src_first, src_last.
  - rewrite !Hcell by lia. by rewrite src_first, src_last.
  - rewrite !Hcell by lia. by rewrite src_last.
Qed.
End BoundaryProperties.

(** * Properties of the simultaneous update *)

Section UpdateProperties.
Context {F G : Type} `{!Scalar F, !RandomSource G F}.
Implicit Types (w : world F G) (Z U V : ndarray).
Implicit Types (u v f r : nat → nat → F).

Lemma perturb_owns w Z f i0 j0 x :
  owns w Z f →
  owns (perturb w Z i0 j0 x) Z
    (λ i j, if decide (i = i0 ∧ j = j0) then x else f i j).
Proof.
  intros (Hr & Hc & m & Hm & Hf). split; [done|]. split; [done|].
  exists (poke i0 j0 x m). simpl. rewrite lookup_alter_eq, Hm.
  split; [done|]. by apply tabulates_poke.
Qed.

Lemma perturb_other w Z Z' f i0 j0 x :
  owns w Z' f → base Z ≠ base Z' → owns (perturb w Z i0 j0 x) Z' f.
Proof.
  intros (Hr & Hc & m & Hm & Hf) Hne. split; [done|]. split; [done|].
  exists m. simpl. by rewrite lookup_alter_ne.
Qed.

(** After an iteration an interior entry holds its right-hand side:
    the boundary pass leaves the interior alone. *)
Lemma step_interior n r f i j :
  1 ≤ i → i + 2 ≤ n → 1 ≤ j → j + 2 ≤ n →
  mirror n n (overlay 1 (n - 2) 1 (n - 2) r f) i j = r (i - 1) (j - 1).
Proof.
  intros Hi1 Hi2 Hj1 Hj2.
  rewrite mirror_src, !src_interior by lia.
  unfold overlay. by rewrite decide_True by lia.
Qed.

(** Both buffers after one iteration, as tables. *)
Lemma step_buffers (p : params F) w U V u v n :
  owns w U u → owns w V v → base U ≠ base V →
  shape U = (n, n) → shape V = (n, n) → 2 ≤ n →
  returns (step p U V) w
    (λ _ w',
       heap w' !! base U =
         Some (tabulate n n
                 (step_U (p_a p) (p_k p) (p_dx p) (p_dt p) n u v)) ∧
       heap w' !! base V =
         Some (tabulate n n
                 (step_V (p_b p) (p_tau p) (p_dx p) (p_dt p) n u v))).
Proof.
  intros OU OV Hne SU SV Hn.
  eapply returns_mono; [by eapply step_returns|].
  intros _ w' (_ & OU' & OV'). simpl. split; by eapply owns_buffer.
Qed.

(** C10. Within one iteration the updated [U] is a function of the
    fields on entry and of [a], [k], [dt], [dx] only: two iterations
    from the same world whose parameters differ in [b] and [tau] only
    leave the same [U]; symmetrically the updated [V] does not depend on
    [a] and [k]. *)
Theorem C10_update_reads_own_constants (p p' : params F) w U V u v n :
  owns w U u → owns w V v → base U ≠ base V →
  shape U = (n, n) → shape V = (n, n) → 2 ≤ n →
  p_dx p' = p_dx p → p_dt p' = p_dt p →
  returns (step p U V) w (λ _ w1,
    returns (step p' U V) w (λ _ w2,
      (p_a p' = p_a p → p_k p' = p_k p →
       ∃ m, heap w1 !! base U = Some m ∧ heap w2 !! base U = Some m) ∧
      (p_b p' = p_b p → p_tau p' = p_tau p →
       ∃ m, heap w1 !! base V = Some m ∧ heap w2 !! base V = Some m))).
Proof.
  intros OU OV Hne SU SV Hn Hdx Hdt.
  eapply returns_mono; [by apply (step_buffers p)|].
  intros _ w1 [HU1 HV1]. simpl.
  eapply returns_mono; [by apply (step_buffers p')|].
  intros _ w2 [HU2 HV2]. simpl. rewrite Hdx, Hdt in *. split.
  - intros Ha Hk. rewrite Ha, Hk in HU2. by eexists.
  - intros Hb Htau. rewrite Hb, Htau in HV2. by eexists.
Qed.

(** C3, as amended.  For one iteration on an [n]×[n] grid, [n ≥ 3],
    let [V] be perturbed on entry at one interior entry [(i0, j0)].
    The updated [U] at [(i0, j0)] is
    [Uc + dt * (a * ΔU + Uc - Uc**3 - Vc + k)] with [Vc] the value of [V]
    at that entry on entry, so it follows the perturbation; no other
    interior entry of the updated [U] is affected, and the updated [V]
    is affected, among the interior entries, at most at [(i0, j0)] and
    its four stencil neighbours. *)
Theorem C3_perturbation_of_V (p : params F) w U V u v n i0 j0 (x : F) :
  owns w U u → owns w V v → base U ≠ base V →
  shape U = (n, n) → shape V = (n, n) → 3 ≤ n →
  1 ≤ i0 ≤ n - 2 → 1 ≤ j0 ≤ n - 2 →
  returns (step p U V) w (λ _ w1,
    returns (step p U V) (perturb w V i0 j0 x) (λ _ w2,
      ∃ mu1 mu2 mv1 mv2,
        heap w1 !! base U = Some mu1 ∧ heap w2 !! base U = Some mu2 ∧
        heap w1 !! base V = Some mv1 ∧ heap w2 !! base V = Some mv2 ∧
        cell mu1 i0 j0 =
          Some (U_update (p_a p) (p_k p) (p_dt p) (u i0 j0)
                  (lap (p_dx p) u (i0 - 1) (j0 - 1)) (v i0 j0)) ∧
        cell mu2 i0 j0 =
          Some (U_update (p_a p) (p_k p) (p_dt p) (u i0 j0)
                  (lap (p_dx p) u (i0 - 1) (j0 - 1)) x) ∧
        (∀ i j, 1 ≤ i ≤ n - 2 → 1 ≤ j ≤ n - 2 →
                ¬ (i = i0 ∧ j = j0) → cell mu1 i j = cell mu2 i j) ∧
        (∀ i j, 1 ≤ i ≤ n - 2 → 1 ≤ j ≤ n - 2 →
                ¬ near i0 j0 i j → cell mv1 i j = cell mv2 i j))).
Proof.
  intros OU OV Hne SU SV Hn Hi0 Hj0.
  eapply returns_mono; [apply (step_buffers p); [done..|lia]|].
  intros _ w1 [HU1 HV1]. simpl.
  pose proof (perturb_owns _ _ _ i0 j0 x OV) as OV2.
  pose proof (perturb_other _ V _ _ i0 j0 x OU (not_eq_sym Hne)) as OU2.
  eapply returns_mono;
    [eapply (step_buffers p);
       [exact OU2 | exact OV2 | done | exact SU | exact SV | lia]|].
  intros _ w2 [HU2 HV2]. simpl.
  eexists _, _, _, _. split_and!; [done..| | | |].
  - destruct (tabulates_tabulate n n
      (step_U (p_a p) (p_k p) (p_dx p) (p_dt p) n u v)) as [_ ->]; [|lia..].
    unfold step_U. rewrite step_interior by lia. unfold rhs_U.
    by replace (1 + (i0 - 1)) with i0 by lia;
       replace (1 + (j0 - 1)) with j0 by lia.
  - match goal with |- cell (tabulate n n ?f) _ _ = _ =>
      destruct (tabulates_tabulate n n f) as [_ ->]; [|lia..] end.
    unfold step_U. rewrite step_interior by lia. unfold rhs_U.
    replace (1 + (i0 - 1)) with i0 by lia.
    replace (1 + (j0 - 1)) with j0 by lia.
    by rewrite decide_True by done.
  - intros i j Hi Hj Hij.
    match goal with |- cell (tabulate n n ?f) _ _ = cell (tabulate n n ?g) _ _ =>
      destruct (tabulates_tabulate n n f) as [_ ->]; [|lia..];
      destruct (tabulates_tabulate n n g) as [_ ->]; [|lia..] end.
    unfold step_U. rewrite !step_interior by lia. unfold rhs_U.
    by rewrite decide_False by lia.
  - intros i j Hi Hj Hij.
    match goal with |- cell (tabulate n n ?f) _ _ = cell (tabulate n n ?g) _ _ =>
      destruct (tabulates_tabulate n n f) as [_ ->]; [|lia..];
      destruct (tabulates_tabulate n n g) as [_ ->]; [|lia..] end.
    unfold step_V. rewrite !step_interior by lia. unfold rhs_V, lap.
    by rewrite !decide_False by (unfold near in Hij; lia).
Qed.
End UpdateProperties.

(** * The whole run *)

Section Simulation.
Context {F G : Type} `{!Scalar F, !RandomSource G F}.
Implicit Types (w : world F G) (Z U V : ndarray) (c : config F).

Lemma simulate_schedule c w :
  simulate c w =
  match schedule c with
  | inl e => inl e
  | inr (dx, dt, n) => run c dx dt n w
  end.
Proof.
  unfold simulate, schedule, py_div, py_int, lift.
  unfold mbind, M_bind, raise, mret, M_ret.
  repeat (destruct (is_zero _); [done|]).
  by destruct (to_int _).
Qed.

Lemma bind_inr {A B} (m : M F G A) (f : A → M F G B) w a w' :
  m w = inr (a, w') → (m ≫= f) w = f a w'.
Proof. intros Hm. unfold mbind, M_bind. by rewrite Hm. Qed.

Lemma bind_inl {A B} (m : M F G A) (f : A → M F G B) w e :
  m w = inl e → (m ≫= f) w = inl e.
Proof. intros Hm. unfold mbind, M_bind. by rewrite Hm. Qed.

Lemma owns_kept w w' Z f :
  (∀ l m, heap w !! l = Some m → heap w' !! l = Some m) →
  owns w Z f → owns w' Z f.
Proof.
  intros Hkeep (Hr & Hc & m & Hm & Hf).
  split; [done|]. split; [done|]. exists m. split; [by apply Hkeep|done].
Qed.

(** The final fields depend on the world through the generator only:
    not on what else the heap contains, nor on where the arrays are
    allocated. *)
Lemma run_fields c dx dt n w :
  fields_of (run c dx dt n w) = final_fields c dx dt n (rng w).
Proof.
  unfold run, final_fields. case_decide as Hsize.
  { unfold rand. rewrite decide_True by lia. done. }
  set (N := Z.to_nat (size c)).
  set (p := Params (a c) (b c) (tau c) (k c) dx dt).
  destruct (rand_returns w (size c) (size c))
    as (U & w1 & HU & SU & NU & K1 & G1 & OU); [lia..|].
  destruct (rand_returns w1 (size c) (size c))
    as (V & w2 & HV & SV & NV & K2 & G2 & OV); [lia..|].
  rewrite (bind_inr _ _ _ _ _ HU), (bind_inr _ _ _ _ _ HV).
  fold N in SU, SV, G1, G2, OU, OV. rewrite G1 in G2, OV.
  destruct (draw_rows N N (rng w)) as [m1 g1]. cbn [fst snd] in *.
  destruct (draw_rows N N g1) as [m2 g2]. cbn [fst snd] in *.
  assert (base U ≠ base V) as Hne.
  { intros E. destruct (owns_allocated _ _ _ OU) as [m Hm]. congruence. }
  pose proof (owns_kept _ _ _ _ K2 OU) as OU2. unfold for_range.
  case_decide as Hsmall.
  - destruct Hsmall as [HN Ht].
    destruct (Z.to_nat n) as [|t]; [lia|]. cbn [repeat_body].
    rewrite (bind_inl _ _ w2 IndexError); [done|].
    apply bind_inl. by eapply step_raises.
  - destruct (decide (2 ≤ N)) as [HN|HN].
    + destruct (loop_returns p U V N (Z.to_nat n) w2 _ _ OU2 OV Hne SU SV HN)
        as ([] & w3 & Hloop & _ & OU3 & OV3).
      rewrite (bind_inr _ _ _ _ _ Hloop). simpl.
      by rewrite (owns_buffer _ _ _ _ _ OU3 SU),
                 (owns_buffer _ _ _ _ _ OV3 SV).
    + assert (Z.to_nat n = 0) as -> by lia. simpl.
      by rewrite (owns_buffer _ _ _ _ _ OU2 SU),
                 (owns_buffer _ _ _ _ _ OV SV).
Qed.

(** C8. Two independent runs with the same configuration, started from
    the same state of the random generator, end alike: with the same
    exception, or with identical final fields [U] and [V].  The two
    runs may start from different heaps. *)
Theorem C8_runs_are_reproducible c (g : G)
    (h1 h2 : gmap loc (list (list F))) :
  fields_of (simulate c (World h1 g)) = fields_of (simulate c (World h2 g)).
Proof.
  rewrite !simulate_schedule.
  destruct (schedule c) as [e|[[dx dt] n]]; [done|].
  by rewrite !run_fields.
Qed.
End Simulation.

(** * Exact arithmetic: the rationals *)

Section Exact.
Context {G : Type} `{!RandomSource G Qc}.
Implicit Types (w : world Qc G) (Z U V : ndarray) (x y : Qc).
Local Open Scope Qc_scope.

Lemma of_nat_S i : of_nat (S i) = 1 + of_nat i.
Proof.
  unfold of_nat. apply Qc_is_canon. simpl.
  rewrite !Qred_correct. unfold Qeq, inject_Z. simpl. lia.
Qed.

Lemma of_Z_4 : of_Z 4 = 1 + 1 + 1 + 1.
Proof. by apply Qc_is_canon. Qed.

Lemma Qcdiv_0_l x : 0 / x = 0.
Proof. unfold Qcdiv. apply Qcmult_0_l. Qed.

Lemma lap_affine (dx α β γ x0 y0 h : Qc) i j :
  lap dx (affine α β γ x0 y0 h) i j = 0.
Proof.
  unfold lap, affine. rewrite of_Z_4.
  cbn [fadd fsub fmul fdiv fpow Qc_scalar]. change (2 + i)%nat with (S (S i)).
  change (2 + j)%nat with (S (S j)). change (1 + i)%nat with (S i).
  change (1 + j)%nat with (S j). rewrite !of_nat_S.
  match goal with |- ?num / _ = _ => replace num with 0 by ring end.
  apply Qcdiv_0_l.
Qed.

(** C6. For a field that samples an affine function
    [f(x, y) = α x + β y + γ] on the grid, the array returned by
    [laplacian] is zero at every entry, exactly. *)
Theorem C6_laplacian_of_affine_field (dx α β γ x0 y0 h : Qc) w Z :
  dx ≠ 0 →
  reads w Z (affine α β γ x0 y0 h) →
  returns (laplacian dx Z) w
    (λ L w',
       shape L = (nrows Z - 2, ncols Z - 2)%nat ∧
       ∃ l, fetch L w' = inr (l, w') ∧
         has_shape (nrows Z - 2) (ncols Z - 2) l ∧
         ∀ i j, (i < nrows Z - 2)%nat → (j < ncols Z - 2)%nat →
                cell l i j = Some 0).
Proof.
  intros _ HZ. eapply returns_mono; [by apply laplacian_table|].
  intros L w' (SL & _ & HL). simpl. split; [done|].
  eexists. split; [exact HL|].
  destruct (tabulates_tabulate (nrows Z - 2) (ncols Z - 2)
              (lap dx (affine α β γ x0 y0 h))) as [Hs Hcell].
  split; [done|]. intros i j Hi Hj.
  by rewrite Hcell, lap_affine by done.
Qed.

(** ** The constant field 0.5 with [a = b = 0], [k = 0], [tau = 1] *)

Lemma src_inside n i : (3 ≤ n)%nat → (i < n)%nat →
  (1 ≤ src n i)%nat ∧ (src n i + 2 ≤ n)%nat.
Proof. intros Hn Hi. unfold src. repeat case_decide; lia. Qed.

Lemma lap_still dx i j : lap dx still i j = 0.
Proof.
  unfold lap, still. cbn [fadd fsub fmul fdiv fpow Qc_scalar].
  match goal with |- ?num / _ = _ =>
    replace num with 0 by (by apply Qc_is_canon) end.
  apply Qcdiv_0_l.
Qed.

Lemma eighth_cube : eighth = half * half * half.
Proof. by apply Qc_is_canon. Qed.

Lemma U_update_still dt : U_update 0 0 dt half 0 half = half - eighth * dt.
Proof.
  unfold U_update. cbn [fadd fsub fmul fdiv fpow Qc_scalar Qcpower].
  rewrite eighth_cube. ring.
Qed.

Lemma V_update_still dt : V_update 0 1 dt half half 0 = half.
Proof.
  unfold V_update. cbn [fadd fsub fmul fdiv fpow Qc_scalar].
  replace (0 * 0 + half - half) with 0 by ring.
  by rewrite Qcmult_0_r, Qcdiv_0_l, Qcplus_0_r.
Qed.

Lemma step_U_still dx dt n i j : (3 ≤ n)%nat → (i < n)%nat → (j < n)%nat →
  step_U 0 0 dx dt n still still i j = half - eighth * dt.
Proof.
  intros Hn Hi Hj. unfold step_U.
  destruct (src_inside n i Hn Hi), (src_inside n j Hn Hj).
  rewrite mirror_src by lia. unfold overlay.
  rewrite decide_True by lia. unfold rhs_U.
  rewrite lap_still. unfold still. apply U_update_still.
Qed.

Lemma step_V_still dx dt n i j : (3 ≤ n)%nat → (i < n)%nat → (j < n)%nat →
  step_V 0 1 dx dt n still still i j = half.
Proof.
  intros Hn Hi Hj. unfold step_V.
  destruct (src_inside n i Hn Hi), (src_inside n j Hn Hj).
  rewrite mirror_src by lia. unfold overlay.
  rewrite decide_True by lia. unfold rhs_V.
  rewrite lap_still. unfold still. apply V_update_still.
Qed.

(** C4, as amended.  On a 5×5 grid with both fields constant at 0.5 and
    [a = b = 0], [k = 0], [tau = 1], for every positive [dt] within the
    stability bound [dt ≤ dx² / 2]: the Laplacian of either field is 0
    everywhere, and one iteration leaves [V] unchanged and changes [U] by
    [dt * (Uc - Uc**3 - Vc)], where the term [- Vc] counts too: every
    entry of [U] becomes [0.5 - 0.125 * dt]. *)
Theorem C4_constant_field_iteration (dx dt : Qc) w U V :
  dx ≠ 0 → 0 < dt → dt ≤ dx ^ 2 / (1 + 1) →
  owns w U still → owns w V still → base U ≠ base V →
  shape U = (5, 5)%nat → shape V = (5, 5)%nat →
  returns (laplacian dx U) w
    (λ L w', fetch L w' = inr (tabulate 3 3 (λ _ _, 0), w')) ∧
  returns (laplacian dx V) w
    (λ L w', fetch L w' = inr (tabulate 3 3 (λ _ _, 0), w')) ∧
  returns (step (quiet dx dt) U V) w
    (λ _ w',
       heap w' !! base V = Some (tabulate 5 5 (λ _ _, half)) ∧
       heap w' !! base U =
         Some (tabulate 5 5 (λ _ _, half - eighth * dt))).
Proof.
  intros _ _ _ OU OV Hne SU SV. split_and!.
  - eapply returns_mono; [apply laplacian_table, owns_reads, OU|].
    intros L w' (_ & _ & HL). simpl. injection SU as HUr HUc.
    rewrite HUr, HUc in HL. rewrite HL. do 2 f_equal. apply tabulate_ext.
    intros i j _ _. apply lap_still.
  - eapply returns_mono; [apply laplacian_table, owns_reads, OV|].
    intros L w' (_ & _ & HL). simpl. injection SV as HVr HVc.
    rewrite HVr, HVc in HL. rewrite HL. do 2 f_equal. apply tabulate_ext.
    intros i j _ _. apply lap_still.
  - eapply returns_mono;
      [apply (step_buffers (quiet dx dt) _ _ _ _ _ 5 OU OV); [done..|lia]|].
    intros _ w' [HU HV]. simpl in *. rewrite HU, HV. split; f_equal.
    + apply tabulate_ext. intros i j Hi Hj. apply step_V_still; lia.
    + apply tabulate_ext. intros i j Hi Hj. apply step_U_still; lia.
Qed.

(** ** The configuration cells in exact arithmetic *)

Lemma is_zero_false x : x ≠ 0 → is_zero x = false.
Proof. intros Hx. by apply bool_decide_eq_false. Qed.

Lemma of_Z_nonzero (z : Z.t) : z ≠ 0%Z → of_Z z ≠ 0.
Proof.
  intros Hz E. apply Q2Qc_eq_iff in E.
  unfold Qeq, inject_Z in E. simpl in E. lia.
Qed.

Lemma Qcinv_nonzero x : x ≠ 0 → / x ≠ 0.
Proof.
  intros Hx E. pose proof (Qcmult_inv_r x Hx) as H1.
  rewrite E, Qcmult_0_r in H1. by apply Q_apart_0_1.
Qed.

Lemma Qcmult_nonzero x y : x ≠ 0 → y ≠ 0 → x * y ≠ 0.
Proof. intros Hx Hy E. by destruct (Qcmult_integral _ _ E). Qed.

Lemma Qcdiv_nonzero x y : x ≠ 0 → y ≠ 0 → x / y ≠ 0.
Proof.
  intros Hx Hy. apply Qcmult_nonzero; [done | by apply Qcinv_nonzero].
Qed.

End Exact.

(** * Concrete runs *)

Section Samples.

Lemma world3_U : owns world3 U3 ramp.
Proof. by apply owns_tabulate. Qed.

Lemma world3_V : owns world3 V3 flat.
Proof. by apply owns_tabulate. Qed.

Lemma world5_U : owns world5 U5 still.
Proof. by apply owns_tabulate. Qed.

Lemma world5_V : owns world5 V5 still.
Proof. by apply owns_tabulate. Qed.

(** ** The operations on small arrays *)

Example slice_inner_5 : slice_range 5 (sl 1 (-1)) = (1, 3).
Proof. reflexivity. Qed.

Example slice_top_5 : slice_range 5 (sl 0 (-2)) = (0, 3).
Proof. reflexivity. Qed.

Example slice_bottom_5 : slice_range 5 (from 2) = (2, 3).
Proof. reflexivity. Qed.

Example slice_inner_2 : slice_range 2 (sl 1 (-1)) = (1, 0).
Proof. reflexivity. Qed.

Example index_last : index 3 (-1) = inr 2.
Proof. reflexivity. Qed.

Example index_outside : index 1 1 = inl IndexError.
Proof. reflexivity. Qed.

(** [laplacian] of a 4×4 array with [dx = 1]: the entry [(0, 0)] is
    [2 + 5 + 10 + 7 - 4 * 6 = 0], the entry [(1, 0)] is
    [6 + 9 + 20 + 11 - 4 * 10 = 6]. *)
Example laplacian_4x4 :
  contents (laplacian (Q2Qc 1) (NDArray 0 0 4 0 4)
              (integers [[1; 2; 3; 4]; [5; 6; 7; 8];
                         [9; 10; 11; 12]; [13; 20; 15; 16]]))
  = inr [[0%Q; 0%Q]; [6%Q; 0%Q]].
Proof. vm_compute. reflexivity. Qed.

(** The Neumann pass on a 3×3 array copies the centre everywhere; on a
    4×4 array it copies the inner 2×2 block outwards. *)
Example neumann_3x3 :
  contents (neumann (NDArray 0 0 3 0 3) ≫= (λ _, mret (NDArray 0 0 3 0 3))
              $ integers [[1; 2; 3]; [4; 5; 6]; [7; 8; 9]])
  = inr [[5%Q; 5%Q; 5%Q]; [5%Q; 5%Q; 5%Q]; [5%Q; 5%Q; 5%Q]].
Proof. vm_compute. reflexivity. Qed.

Example neumann_4x4 :
  contents (neumann (NDArray 0 0 4 0 4) ≫= (λ _, mret (NDArray 0 0 4 0 4))
              $ integers [[1; 2; 3; 4]; [5; 6; 7; 8];
                          [9; 10; 11; 12]; [13; 14; 15; 16]])
  = inr [[6%Q; 6%Q; 7%Q; 7%Q]; [6%Q; 6%Q; 7%Q; 7%Q];
         [10%Q; 10%Q; 11%Q; 11%Q]; [10%Q; 10%Q; 11%Q; 11%Q]].
Proof. vm_compute. reflexivity. Qed.

(** The Neumann pass needs two rows. *)
Example neumann_1x1 :
  contents (neumann (NDArray 0 0 1 0 1) ≫= (λ _, mret (NDArray 0 0 1 0 1))
              $ integers [[1]])
  = inl IndexError.
Proof. vm_compute. reflexivity. Qed.

(** The notebook runs [n = int(T/dt) = 55555] iterations with
    [dx = 1/50] and [dt = 9/50000]. *)
Lemma notebook_schedule :
  match schedule notebook with
  | inl e => inl e
  | inr (dx, dt, n) => inr (this dx, this dt, n)
  end = inr ((1 # 50)%Q, (9 # 50000)%Q, 55555%Z).
Proof. vm_compute. reflexivity. Qed.

(** The claim C3 fails: with [V[1,1]] perturbed from 0 to 1 on entry,
    the updated [U[1,1]] is [-8.201] instead of [-8.001]. *)
Lemma C3_counterexample :
  ∃ w1 w2,
    step notebook3 U3 V3 world3 = inr (tt, w1) ∧
    step notebook3 U3 V3 (perturb world3 V3 1 1 (Q2Qc 1)) = inr (tt, w2) ∧
    peek w1 U3 1 1 = Some (-8001 # 1000)%Q ∧
    peek w2 U3 1 1 = Some (-8201 # 1000)%Q ∧
    peek w1 U3 1 1 ≠ peek w2 U3 1 1.
Proof.
  eexists _, _. split_and!.
  - vm_compute. reflexivity.
  - vm_compute. reflexivity.
  - vm_compute. reflexivity.
  - vm_compute. reflexivity.
  - vm_compute. discriminate.
Qed.

(** The claim C4 fails: with [dx = 2/5] and [dt = 9/125] one iteration
    takes the interior entry [U[2,2]] from [0.5] to [0.491], which is
    [0.5 - 0.125 * dt], and not to [0.5 + 0.375 * dt = 0.527]. *)
Lemma C4_counterexample :
  ∃ w',
    step (quiet (Q2Qc (2 # 5)) (Q2Qc (9 # 125))) U5 V5 world5
      = inr (tt, w') ∧
    peek w' U5 2 2 = Some (491 # 1000)%Q ∧
    ¬ ((491 # 1000) == (1 # 2) + (375 # 1000) * (9 # 125))%Q.
Proof.
  eexists. split_and!.
  - vm_compute. reflexivity.
  - vm_compute. reflexivity.
  - vm_compute. discriminate.
Qed.


(** ** The theorems at concrete inputs *)

Lemma C1_witness :
  returns (laplacian (Q2Qc (2 # 3)) U3) world3
    (λ L w',
       shape L = (3 - 2, 3 - 2) ∧
       ∃ l, fetch L w' = inr (l, w') ∧ has_shape (3 - 2) (3 - 2) l ∧
         ∀ i j, 1 ≤ i ≤ 3 - 2 → 1 ≤ j ≤ 3 - 2 →
           cell l (i - 1) (j - 1) =
           Some (fdiv
                   (fsub (fadd (fadd (fadd (ramp (i - 1) j) (ramp (i + 1) j))
                                     (ramp i (j - 1)))
                               (ramp i (j + 1)))
                         (fmul (of_Z 4) (ramp i j)))
                   (fpow (Q2Qc (2 # 3)) 2))).
Proof.
  apply C1_laplacian_five_point.
  - exact Qcplus_comm.
  - intros x y t. symmetry. apply Qcplus_assoc.
  - exact (owns_reads _ _ _ world3_U).
  - reflexivity.
  - lia.
Defined.

Lemma C7_witness :
  returns (laplacian (Q2Qc (2 # 3)) U3) world3
    (λ L w',
       heap world3 !! base L = None ∧
       rng w' = rng world3 ∧
       (∀ l m, heap world3 !! l = Some m → heap w' !! l = Some m) ∧
       ∃ a, fetch U3 world3 = inr (a, world3) ∧ fetch U3 w' = inr (a, w')).
Proof.
  apply (C7_laplacian_no_side_effects _ _ _ ramp).
  exact (owns_reads _ _ _ world3_U).
Defined.

Lemma C2_witness :
  returns (repeat_body 2 (step notebook3 U3 V3)) world3
    (λ _ w', ∀ Z, Z = U3 ∨ Z = V3 →
       ∃ m, heap w' !! base Z = Some m ∧ has_shape 3 3 m ∧
         m !! 0 = m !! 1 ∧
         m !! (3 - 1) = m !! (3 - 2) ∧
         ∀ i, i < 3 →
           cell m i 0 = cell m i 1 ∧ cell m i (3 - 1) = cell m i (3 - 2)).
Proof.
  apply (C2_boundary_rows_and_columns notebook3 world3 U3 V3 ramp flat 3 1).
  - exact world3_U.
  - exact world3_V.
  - discriminate.
  - reflexivity.
  - reflexivity.
  - lia.
Defined.

Lemma C9_witness :
  returns (repeat_body 2 (step notebook3 U3 V3)) world3
    (λ _ w', ∀ Z, Z = U3 ∨ Z = V3 →
       ∃ m, heap w' !! base Z = Some m ∧ has_shape 3 3 m ∧
         is_Some (cell m 0 0) ∧
         cell m 0 0 = cell m 1 1 ∧
         cell m 0 (3 - 1) = cell m 1 (3 - 2) ∧
         cell m (3 - 1) 0 = cell m (3 - 2) 1 ∧
         cell m (3 - 1) (3 - 1) = cell m (3 - 2) (3 - 2)).
Proof.
  apply (C9_corners_equal_diagonal_neighbours
           notebook3 world3 U3 V3 ramp flat 3 1).
  - exact world3_U.
  - exact world3_V.
  - discriminate.
  - reflexivity.
  - reflexivity.
  - lia.
Defined.

Lemma C10_witness :
  returns (step notebook3 U3 V3) world3 (λ _ w1,
    returns (step notebook3' U3 V3) world3 (λ _ w2,
      (p_a notebook3' = p_a notebook3 → p_k notebook3' = p_k notebook3 →
       ∃ m, heap w1 !! base U3 = Some m ∧ heap w2 !! base U3 = Some m) ∧
      (p_b notebook3' = p_b notebook3 → p_tau notebook3' = p_tau notebook3 →
       ∃ m, heap w1 !! base V3 = Some m ∧ heap w2 !! base V3 = Some m))).
Proof.
  apply (C10_update_reads_own_constants
           notebook3 notebook3' world3 U3 V3 ramp flat 3).
  - exact world3_U.
  - exact world3_V.
  - discriminate.
  - reflexivity.
  - reflexivity.
  - lia.
  - reflexivity.
  - reflexivity.
Defined.

Lemma C3_witness :
  returns (step notebook3 U3 V3) world3 (λ _ w1,
    returns (step notebook3 U3 V3) (perturb world3 V3 1 1 (Q2Qc 1)) (λ _ w2,
      ∃ mu1 mu2 mv1 mv2,
        heap w1 !! base U3 = Some mu1 ∧ heap w2 !! base U3 = Some mu2 ∧
        heap w1 !! base V3 = Some mv1 ∧ heap w2 !! base V3 = Some mv2 ∧
        cell mu1 1 1 =
          Some (U_update (p_a notebook3) (p_k notebook3) (p_dt notebook3)
                  (ramp 1 1) (lap (p_dx notebook3) ramp (1 - 1) (1 - 1))
                  (flat 1 1)) ∧
        cell mu2 1 1 =
          Some (U_update (p_a notebook3) (p_k notebook3) (p_dt notebook3)
                  (ramp 1 1) (lap (p_dx notebook3) ramp (1 - 1) (1 - 1))
                  (Q2Qc 1)) ∧
        (∀ i j, 1 ≤ i ≤ 3 - 2 → 1 ≤ j ≤ 3 - 2 →
                ¬ (i = 1 ∧ j = 1) → cell mu1 i j = cell mu2 i j) ∧
        (∀ i j, 1 ≤ i ≤ 3 - 2 → 1 ≤ j ≤ 3 - 2 →
                ¬ near 1 1 i j → cell mv1 i j = cell mv2 i j))).
Proof.
  apply (C3_perturbation_of_V notebook3 world3 U3 V3 ramp flat 3 1 1).
  - exact world3_U.
  - exact world3_V.
  - discriminate.
  - reflexivity.
  - reflexivity.
  - lia.
  - lia.
  - lia.
Defined.

Lemma C4_witness :
  returns (laplacian (Q2Qc (2 # 5)) U5) world5
    (λ L w', fetch L w' = inr (tabulate 3 3 (λ _ _, Q2Qc 0), w')) ∧
  returns (laplacian (Q2Qc (2 # 5)) V5) world5
    (λ L w', fetch L w' = inr (tabulate 3 3 (λ _ _, Q2Qc 0), w')) ∧
  returns (step (quiet (Q2Qc (2 # 5)) (Q2Qc (9 # 125))) U5 V5) world5
    (λ _ w',
       heap w' !! base V5 = Some (tabulate 5 5 (λ _ _, half)) ∧
       heap w' !! base U5 =
         Some (tabulate 5 5
                 (λ _ _, Qcminus half (Qcmult eighth (Q2Qc (9 # 125)))))).
Proof.
  apply (C4_constant_field_iteration
           (Q2Qc (2 # 5)) (Q2Qc (9 # 125)) world5 U5 V5).
  - discriminate.
  - reflexivity.
  - discriminate.
  - exact world5_U.
  - exact world5_V.
  - discriminate.
  - reflexivity.
  - reflexivity.
Defined.

Lemma C6_witness :
  returns (laplacian (Q2Qc (1 # 2)) Z4) world4
    (λ L w',
       shape L = (nrows Z4 - 2, ncols Z4 - 2) ∧
       ∃ l, fetch L w' = inr (l, w') ∧
         has_shape (nrows Z4 - 2) (ncols Z4 - 2) l ∧
         ∀ i j, i < nrows Z4 - 2 → j < ncols Z4 - 2 →
                cell l i j = Some (Q2Qc 0)).
Proof.
  apply (C6_laplacian_of_affine_field (Q2Qc (1 # 2))
           (Q2Qc 2) (Q2Qc 3) (Q2Qc 5) (Q2Qc (-1)) (Q2Qc (-1)) (Q2Qc (1 # 2))).
  - discriminate.
  - apply owns_reads, owns_tabulate; reflexivity.
Defined.

End Samples.

(** * Further properties of the Laplacian operator *)

Section LaplacianEdges.
Context {F G : Type} `{!Scalar F, !RandomSource G F}.
Implicit Types (w : world F G) (Z : ndarray) (z : nat → nat → F).

(** The stencil never reads a corner of its input. *)
Lemma lap_ignores_corner (dx x : F) z R C i0 j0 i j :
  corner R C i0 j0 → i < R - 2 → j < C - 2 →
  lap dx (λ i j, if decide (i = i0 ∧ j = j0) then x else z i j) i j =
  lap dx z i j.
Proof.
  intros [Hi0 Hj0] Hi Hj. unfold lap.
  by rewrite !decide_False by lia.
Qed.

(** X1. [laplacian] accepts any array, square or not, large or small:
    for an [R]×[C] input it returns an [(R-2)]×[(C-2)] array without
    raising, and when the input has fewer than three rows or fewer than
    three columns the result has no entry at all. *)
Theorem X1_laplacian_of_any_shape (dx : F) w Z z :
  reads w Z z →
  returns (laplacian dx Z) w
    (λ L w',
       shape L = (nrows Z - 2, ncols Z - 2) ∧
       ∃ l, fetch L w' = inr (l, w') ∧
         has_shape (nrows Z - 2) (ncols Z - 2) l ∧
         (nrows Z < 3 → l = []) ∧
         (ncols Z < 3 → ∀ i j, cell l i j = None)).
Proof.
  intros HZ. eapply returns_mono; [by apply laplacian_table|].
  intros L w' (SL & _ & HL). simpl. split; [done|].
  eexists. split; [exact HL|].
  destruct (tabulates_tabulate (nrows Z - 2) (ncols Z - 2) (lap dx z))
    as [Hs _].
  split_and!; [done | |].
  - intros Hr. destruct Hs as [Hlen _].
    apply length_zero_iff_nil. rewrite Hlen. lia.
  - intros Hc i j. unfold cell.
    destruct (tabulate _ _ _ !! i) as [row|] eqn:Hrow; [simpl|done].
    apply lookup_ge_None.
    rewrite (has_shape_row _ _ _ _ _ Hs Hrow). lia.
Qed.

(** X2. [laplacian] never reads the four corners of its input: whatever
    value a corner holds, the returned array is the same. *)
Theorem X2_laplacian_ignores_corners (dx x : F) w Z z i0 j0 :
  owns w Z z → corner (nrows Z) (ncols Z) i0 j0 →
  returns (laplacian dx Z) w (λ L1 w1,
    returns (laplacian dx Z) (perturb w Z i0 j0 x) (λ L2 w2,
      shape L1 = shape L2 ∧
      ∃ l, fetch L1 w1 = inr (l, w1) ∧ fetch L2 w2 = inr (l, w2))).
Proof.
  intros OZ Hcorner.
  eapply returns_mono; [apply laplacian_table, owns_reads, OZ|].
  intros L1 w1 (S1 & _ & H1). simpl.
  pose proof (perturb_owns _ _ _ i0 j0 x OZ) as OZ'.
  eapply returns_mono; [apply laplacian_table, owns_reads, OZ'|].
  intros L2 w2 (S2 & _ & H2). simpl.
  split; [congruence|]. eexists. split; [exact H1|].
  rewrite H2. do 2 f_equal. apply tabulate_ext.
  intros i j Hi Hj. by eapply lap_ignores_corner.
Qed.
End LaplacianEdges.

(** * Further properties of the boundary pass *)

Lemma src_idempotent n i : 2 ≤ n → i < n → src n (src n i) = src n i.
Proof. intros Hn Hi. unfold src. repeat case_decide; lia. Qed.

Section BoundaryEdges.
Context {F G : Type} `{!Scalar F, !RandomSource G F}.
Implicit Types (w : world F G) (Z : ndarray) (f : nat → nat → F).

(** The buffer of [Z] after the pass, entry by entry. *)
Lemma neumann_buffer w Z f :
  owns w Z f → 2 ≤ nrows Z → 2 ≤ ncols Z →
  returns (neumann Z) w
    (λ _ w', preserves {[base Z]} w w' ∧
             owns w' Z (mirror (nrows Z) (ncols Z) f) ∧
             heap w' !! base Z =
               Some (tabulate (nrows Z) (ncols Z)
                       (λ i j, f (src (nrows Z) i) (src (ncols Z) j)))).
Proof.
  intros OZ HR HC. eapply returns_mono; [by apply neumann_returns|].
  intros _ w' [P OZ']. simpl. split_and!; [done..|].
  rewrite (owns_buffer _ _ _ _ _ OZ' eq_refl). f_equal.
  apply tabulate_ext. intros i j Hi Hj. by apply mirror_src.
Qed.

(** X3. The Neumann pass is idempotent: a second pass right after the
    first changes nothing. *)
Theorem X3_neumann_is_idempotent w Z f :
  owns w Z f → 2 ≤ nrows Z → 2 ≤ ncols Z →
  returns (neumann Z) w (λ _ w1,
    returns (neumann Z) w1 (λ _ w2,
      ∃ m, heap w1 !! base Z = Some m ∧ heap w2 !! base Z = Some m)).
Proof.
  intros OZ HR HC. eapply returns_mono; [by apply neumann_buffer|].
  intros _ w1 (_ & OZ1 & H1). simpl.
  eapply returns_mono; [by apply neumann_buffer|].
  intros _ w2 (_ & _ & H2). simpl.
  eexists. split; [exact H1|]. rewrite H2. f_equal.
  apply tabulate_ext. intros i j Hi Hj.
  rewrite !mirror_src by (try apply src_lt; lia).
  by rewrite !src_idempotent by lia.
Qed.

(** X4. The Neumann pass writes the outer ring of its array and nothing
    else: every interior entry keeps its value, every other array keeps
    its contents, and the random generator is not advanced. *)
Theorem X4_neumann_writes_the_ring_only w Z f :
  owns w Z f → 2 ≤ nrows Z → 2 ≤ ncols Z →
  returns (neumann Z) w
    (λ _ w',
       rng w' = rng w ∧
       (∀ l m, l ≠ base Z → heap w !! l = Some m → heap w' !! l = Some m) ∧
       ∃ m m', heap w !! base Z = Some m ∧ heap w' !! base Z = Some m' ∧
         has_shape (nrows Z) (ncols Z) m' ∧
         ∀ i j, 1 ≤ i → i + 2 ≤ nrows Z → 1 ≤ j → j + 2 ≤ ncols Z →
                cell m' i j = cell m i j).
Proof.
  intros OZ HR HC. eapply returns_mono; [by apply neumann_buffer|].
  intros _ w' ([Hg Hp] & _ & H'). simpl. split_and!; [done | |].
  - intros l m Hl. apply Hp. by apply not_elem_of_singleton_2.
  - pose proof (owns_buffer _ _ _ _ _ OZ eq_refl) as H.
    eexists _, _. split_and!; [exact H | exact H' | apply tabulates_tabulate |].
    intros i j Hi1 Hi2 Hj1 Hj2.
    match goal with |- cell (tabulate _ _ ?g) _ _ = _ =>
      destruct (tabulates_tabulate (nrows Z) (ncols Z) g) as [_ ->];
        [|lia..] end.
    destruct (tabulates_tabulate (nrows Z) (ncols Z) f) as [_ ->]; [|lia..].
    by rewrite !src_interior by lia.
Qed.

(** X5. On an array with fewer than two rows or fewer than two columns
    the Neumann pass raises [IndexError]. *)
Theorem X5_neumann_needs_two_rows_and_columns w Z f :
  owns w Z f → nrows Z < 2 ∨ ncols Z < 2 →
  neumann Z w = inl IndexError.
Proof.
  intros OZ Hsmall.
  destruct (decide (nrows Z < 2)) as [Hr|Hr].
  { unfold neumann, row_at, index, mbind, M_bind, lift.
    simpl. rewrite decide_False by lia. done. }
  destruct Hsmall as [?|Hc]; [lia|].
  change (outcome (neumann Z) w (λ r, r = inl IndexError)).
  unfold neumann. eapply outcome_bind.
  { apply (copy_row_returns _ _ _ 1 0 1 0 OZ);
      [apply (index_nonneg _ 1); lia | apply (index_nonneg _ 0); lia]. }
  intros _ w1 [_ O1]. eapply outcome_bind.
  { apply (copy_row_returns _ _ _ (-2) (-1) (nrows Z - 2) (nrows Z - 1) O1);
      [apply (index_from_end _ 2); lia | apply (index_from_end _ 1); lia]. }
  intros _ w2 _.
  unfold outcome, col_at, index, mbind, M_bind, lift.
  simpl. rewrite decide_False by lia. done.
Qed.
End BoundaryEdges.

(** * Further properties of one iteration and of the loop *)

Section IterationProperties.
Context {F G : Type} `{!Scalar F, !RandomSource G F}.
Implicit Types (w : world F G) (Z U V : ndarray).
Implicit Types (u v : nat → nat → F).

(** X6. The two interiors are updated simultaneously: after an iteration
    the interior entry [(i, j)] of [U] is
    [Uc + dt * (a * ΔU + Uc - Uc**3 - Vc + k)] and that of [V] is
    [Vc + dt * (b * ΔV + Uc - Vc) / tau], where [Uc], [Vc], [ΔU], [ΔV] are
    all taken from the fields as they were on entry; the update of [V]
    does not see the new [U]. *)
Theorem X6_interiors_are_updated_simultaneously (p : params F)
    w U V u v n :
  owns w U u → owns w V v → base U ≠ base V →
  shape U = (n, n) → shape V = (n, n) → 3 ≤ n →
  returns (step p U V) w
    (λ _ w',
       ∃ mu mv, heap w' !! base U = Some mu ∧ heap w' !! base V = Some mv ∧
         ∀ i j, 1 ≤ i ≤ n - 2 → 1 ≤ j ≤ n - 2 →
           cell mu i j =
             Some (U_update (p_a p) (p_k p) (p_dt p)
                     (u i j) (lap (p_dx p) u (i - 1) (j - 1)) (v i j)) ∧
           cell mv i j =
             Some (V_update (p_b p) (p_tau p) (p_dt p)
                     (u i j) (v i j) (lap (p_dx p) v (i - 1) (j - 1)))).
Proof.
  intros OU OV Hne SU SV Hn.
  eapply returns_mono; [apply (step_buffers p); [done..|lia]|].
  intros _ w' [HU HV]. simpl. eexists _, _. split_and!; [done..|].
  intros i j Hi Hj.
  destruct (tabulates_tabulate n n
    (step_U (p_a p) (p_k p) (p_dx p) (p_dt p) n u v)) as [_ ->]; [|lia..].
  destruct (tabulates_tabulate n n
    (step_V (p_b p) (p_tau p) (p_dx p) (p_dt p) n u v)) as [_ ->]; [|lia..].
  unfold step_U, step_V. rewrite !step_interior by lia.
  unfold rhs_U, rhs_V.
  replace (1 + (i - 1)) with i by lia. replace (1 + (j - 1)) with j by lia.
  done.
Qed.

(** After an iteration on a grid of size at least 3 every entry holds the
    right-hand side of an interior entry, its source. *)
Lemma step_entry n (r f : nat → nat → F) i j :
  3 ≤ n → i < n → j < n →
  mirror n n (overlay 1 (n - 2) 1 (n - 2) r f) i j =
  r (src n i - 1) (src n j - 1).
Proof.
  intros Hn Hi Hj. rewrite mirror_src by lia. unfold overlay.
  rewrite decide_True; [done|]. unfold src. repeat case_decide; lia.
Qed.

(** X7. An iteration never reads the four corners of the fields it
    starts from: whatever values the corners of [U] and of [V] hold on
    entry, the two fields are the same after the iteration. *)
Theorem X7_iteration_ignores_corners (p : params F) w U V u v n
    i0 j0 i1 j1 (x y : F) :
  owns w U u → owns w V v → base U ≠ base V →
  shape U = (n, n) → shape V = (n, n) → 3 ≤ n →
  corner n n i0 j0 → corner n n i1 j1 →
  returns (step p U V) w (λ _ w1,
    returns (step p U V) (perturb (perturb w U i0 j0 x) V i1 j1 y) (λ _ w2,
      ∃ mu mv,
        heap w1 !! base U = Some mu ∧ heap w2 !! base U = Some mu ∧
        heap w1 !! base V = Some mv ∧ heap w2 !! base V = Some mv)).
Proof.
  intros OU OV Hne SU SV Hn HcU HcV.
  eapply returns_mono; [apply (step_buffers p); [done..|lia]|].
  intros _ w1 [HU1 HV1]. simpl.
  pose proof (perturb_other _ V _ _ i1 j1 y
                (perturb_owns _ _ _ i0 j0 x OU) (not_eq_sym Hne)) as OU2.
  pose proof (perturb_owns _ _ _ i1 j1 y
                (perturb_other _ U _ _ i0 j0 x OV Hne)) as OV2.
  eapply returns_mono;
    [eapply (step_buffers p);
       [exact OU2 | exact OV2 | done | exact SU | exact SV | lia]|].
  intros _ w2 [HU2 HV2]. simpl.
  eexists _, _. split_and!; [exact HU1 | | exact HV1 |].
  - rewrite HU2. f_equal. apply tabulate_ext. intros i j Hi Hj.
    unfold step_U. rewrite !step_entry by lia. unfold rhs_U.
    assert (1 ≤ src n i ∧ src n i + 2 ≤ n ∧ 1 ≤ src n j ∧ src n j + 2 ≤ n)
      as (? & ? & ? & ?) by (unfold src; repeat case_decide; lia).
    destruct HcU as [? ?], HcV as [? ?].
    rewrite (lap_ignores_corner _ _ _ n n i0 j0) by (done || lia).
    by rewrite !decide_False by lia.
  - rewrite HV2. f_equal. apply tabulate_ext. intros i j Hi Hj.
    unfold step_V. rewrite !step_entry by lia. unfold rhs_V.
    assert (1 ≤ src n i ∧ src n i + 2 ≤ n ∧ 1 ≤ src n j ∧ src n j + 2 ≤ n)
      as (? & ? & ? & ?) by (unfold src; repeat case_decide; lia).
    destruct HcU as [? ?], HcV as [? ?].
    rewrite (lap_ignores_corner _ _ _ n n i1 j1) by (done || lia).
    by rewrite !decide_False by lia.
Qed.

(** X8. Spatially uniform fields stay spatially uniform: when [U] and
    [V] have the same value everywhere on entry, each of them has the same
    value everywhere after the iteration, the value the update formula
    gives for one entry.  No law of arithmetic is needed. *)
Theorem X8_uniform_fields_stay_uniform (p : params F) w U V (cu cv : F) n :
  owns w U (uniform cu) → owns w V (uniform cv) → base U ≠ base V →
  shape U = (n, n) → shape V = (n, n) → 3 ≤ n →
  returns (step p U V) w
    (λ _ w',
       heap w' !! base U =
         Some (tabulate n n
                 (uniform (U_update (p_a p) (p_k p) (p_dt p) cu
                             (lap (p_dx p) (uniform cu) 0 0) cv))) ∧
       heap w' !! base V =
         Some (tabulate n n
                 (uniform (V_update (p_b p) (p_tau p) (p_dt p) cu cv
                             (lap (p_dx p) (uniform cv) 0 0))))).
Proof.
  intros OU OV Hne SU SV Hn.
  eapply returns_mono; [apply (step_buffers p); [done..|lia]|].
  intros _ w' [HU HV]. simpl. rewrite HU, HV.
  split; f_equal; apply tabulate_ext; intros i j Hi Hj.
  - unfold step_U. by rewrite step_entry by lia.
  - unfold step_V. by rewrite step_entry by lia.
Qed.

(** X9. The loop works in place: after any number of iterations [U] and
    [V] are still the same two [n]×[n] arrays, no other array has been
    written, and no random number has been drawn. *)
Theorem X9_loop_works_in_place (p : params F) w U V u v n t :
  owns w U u → owns w V v → base U ≠ base V →
  shape U = (n, n) → shape V = (n, n) → 2 ≤ n →
  returns (repeat_body t (step p U V)) w
    (λ _ w',
       rng w' = rng w ∧
       (∀ l m, l ≠ base U → l ≠ base V →
               heap w !! l = Some m → heap w' !! l = Some m) ∧
       ∃ mu mv, heap w' !! base U = Some mu ∧ heap w' !! base V = Some mv ∧
         has_shape n n mu ∧ has_shape n n mv).
Proof.
  intros OU OV Hne SU SV Hn.
  eapply returns_mono; [by eapply loop_returns|].
  intros _ w' ([Hg Hp] & OU' & OV'). simpl. split_and!; [done | |].
  - intros l m HlU HlV. apply Hp.
    apply not_elem_of_union. split; by apply not_elem_of_singleton_2.
  - eexists _, _.
    rewrite (owns_buffer _ _ _ _ _ OU' SU), (owns_buffer _ _ _ _ _ OV' SV).
    split_and!; [done..| |]; apply tabulates_tabulate.
Qed.
End IterationProperties.

(** * Further properties in exact arithmetic *)

(** Statements on the canonical rationals are taken to the rationals. *)
Ltac to_Q :=
  unfold Qclt, Qcle, Qcdiv, Qcminus, Qcopp, Qcmult, Qcinv, Qcplus, Q2Qc in *;
  cbn [this Qcpower] in *;
  unfold Qcmult, Q2Qc in *; cbn [this] in *;
  repeat (rewrite ?Qred_correct in *; cbn [this] in * ).

Section ExactProperties.
Context {G : Type} `{!RandomSource G Qc}.
Implicit Types (w : world Qc G) (Z U V : ndarray) (x y : Qc).
Local Open Scope Qc_scope.

Lemma Qc_nonzero x : x ≠ 0 → ¬ (this x == 0)%Q.
Proof. intros Hx E. apply Hx. by apply Qc_is_canon. Qed.

Lemma lap_quadratic (α β γ δ ε ζ x0 y0 h : Qc) i j :
  h ≠ 0 →
  lap h (quadratic α β γ δ ε ζ x0 y0 h) i j = (1 + 1) * (α + β).
Proof.
  intros Hh. unfold lap, quadratic. rewrite of_Z_4.
  cbn [fadd fsub fmul fdiv fpow Qc_scalar Qcpower].
  change (2 + i)%nat with (S (S i)). change (2 + j)%nat with (S (S j)).
  change (1 + i)%nat with (S i). change (1 + j)%nat with (S j).
  rewrite !of_nat_S. field. exact Hh.
Qed.

(** X10. The stencil is exact on quadratic fields: for a field that
    samples [q(x, y) = α x² + β y² + γ x y + δ x + ε y + ζ] on a grid of
    step [dx], the array returned by [laplacian] holds the Laplacian of
    [q], [2 α + 2 β], at every entry. *)
Theorem X10_laplacian_of_quadratic_field (α β γ δ ε ζ x0 y0 dx : Qc) w Z :
  dx ≠ 0 →
  reads w Z (quadratic α β γ δ ε ζ x0 y0 dx) →
  returns (laplacian dx Z) w
    (λ L w',
       ∃ l, fetch L w' = inr (l, w') ∧
         has_shape (nrows Z - 2) (ncols Z - 2) l ∧
         ∀ i j, (i < nrows Z - 2)%nat → (j < ncols Z - 2)%nat →
                cell l i j = Some ((1 + 1) * (α + β))).
Proof.
  intros Hdx HZ. eapply returns_mono; [by apply laplacian_table|].
  intros L w' (SL & _ & HL). simpl.
  eexists. split; [exact HL|].
  destruct (tabulates_tabulate (nrows Z - 2) (ncols Z - 2)
              (lap dx (quadratic α β γ δ ε ζ x0 y0 dx))) as [Hs Hcell].
  split; [done|]. intros i j Hi Hj.
  by rewrite Hcell, lap_quadratic by done.
Qed.

Lemma lap_uniform dx (c : Qc) i j : lap dx (uniform c) i j = 0.
Proof.
  unfold lap, uniform. rewrite of_Z_4.
  cbn [fadd fsub fmul fdiv fpow Qc_scalar].
  match goal with |- ?num / _ = _ => replace num with 0 by ring end.
  apply Qcdiv_0_l.
Qed.

(** X11. The homogeneous equilibrium is a fixed point of the iteration:
    when both fields have the same value [c] everywhere and [k = c³], an
    iteration leaves both fields as they are, whatever [a], [b], [dt] and
    the non-zero [tau] and [dx] are. *)
Theorem X11_homogeneous_equilibrium_is_fixed (p : params Qc) w U V
    (c : Qc) n :
  owns w U (uniform c) → owns w V (uniform c) → base U ≠ base V →
  shape U = (n, n) → shape V = (n, n) → (3 ≤ n)%nat →
  p_k p = c ^ 3 → p_tau p ≠ 0 → p_dx p ≠ 0 →
  returns (step p U V) w
    (λ _ w',
       ∃ mu mv,
         heap w !! base U = Some mu ∧ heap w' !! base U = Some mu ∧
         heap w !! base V = Some mv ∧ heap w' !! base V = Some mv).
Proof.
  intros OU OV Hne SU SV Hn Hk Htau Hdx.
  eapply returns_mono; [apply (step_buffers p); [done..|lia]|].
  intros _ w' [HU HV]. simpl.
  exists (tabulate n n (uniform c)), (tabulate n n (uniform c)).
  rewrite (owns_buffer _ _ _ _ _ OU SU), (owns_buffer _ _ _ _ _ OV SV).
  rewrite HU, HV.
  split_and!; [done | | done |]; f_equal; apply tabulate_ext;
    intros i j Hi Hj.
  - unfold step_U. rewrite step_entry by lia. unfold rhs_U.
    rewrite lap_uniform, Hk. unfold uniform, U_update.
    cbn [fadd fsub fmul fdiv fpow Qc_scalar Qcpower]. ring.
  - unfold step_V. rewrite step_entry by lia. unfold rhs_V.
    rewrite lap_uniform. unfold uniform, V_update.
    cbn [fadd fsub fmul fdiv fpow Qc_scalar Qcpower].
    unfold Qcdiv. ring.
Qed.
Lemma lap_linear dx (α : Qc) (f g : nat → nat → Qc) i j :
  lap dx (λ i j, α * f i j + g i j) i j = α * lap dx f i j + lap dx g i j.
Proof.
  unfold lap. rewrite of_Z_4.
  cbn [fadd fsub fmul fdiv fpow Qc_scalar]. unfold Qcdiv. ring.
Qed.

(** X19. [laplacian] is linear: when a third array holds [α Z1 + Z2],
    entry by entry, its Laplacian is [α] times that of [Z1] plus that of
    [Z2], entry by entry. *)
Theorem X19_laplacian_is_linear (dx α : Qc) w Z1 Z2 Z3
    (f g : nat → nat → Qc) :
  reads w Z1 f → reads w Z2 g → reads w Z3 (λ i j, α * f i j + g i j) →
  shape Z1 = shape Z3 → shape Z2 = shape Z3 →
  returns (laplacian dx Z1) w (λ L1 w1,
    returns (laplacian dx Z2) w (λ L2 w2,
      returns (laplacian dx Z3) w (λ L3 w3,
        ∃ l1 l2 l3,
          fetch L1 w1 = inr (l1, w1) ∧ fetch L2 w2 = inr (l2, w2) ∧
          fetch L3 w3 = inr (l3, w3) ∧
          ∀ i j, (i < nrows Z3 - 2)%nat → (j < ncols Z3 - 2)%nat →
            ∃ x y, cell l1 i j = Some x ∧ cell l2 i j = Some y ∧
                   cell l3 i j = Some (α * x + y)))).
Proof.
  intros H1 H2 H3 [= R1 C1] [= R2 C2].
  eapply returns_mono; [by apply laplacian_table|].
  intros L1 w1 (_ & _ & F1). cbv beta.
  eapply returns_mono; [by apply laplacian_table|].
  intros L2 w2 (_ & _ & F2). cbv beta.
  eapply returns_mono; [by apply laplacian_table|].
  intros L3 w3 (_ & _ & F3). cbv beta.
  rewrite R1, C1 in F1. rewrite R2, C2 in F2.
  eexists _, _, _. split_and!; [exact F1 | exact F2 | exact F3 |].
  intros i j Hi Hj. eexists _, _.
  split_and!; try (by apply tabulates_tabulate).
  rewrite <- lap_linear. by apply tabulates_tabulate.
Qed.
End ExactProperties.

(** * The run, from what the scalar cells computed *)

Section RunProperties.
Context {F G : Type} `{!Scalar F, !RandomSource G F}.
Implicit Types (w : world F G) (c : config F).

Lemma fields_of_inl (r : exn + (ndarray * ndarray) * world F G) e :
  fields_of r = inl e → r = inl e.
Proof. destruct r as [e'|[[U V] w']]; [by intros [= ->]|done]. Qed.

(** X13. The loop body runs exactly [max(n, 0)] times, [n] being the
    integer the cell [n = int(T/dt)] computed in the arithmetic of the
    program: on a grid of size 2 or more the run returns normally and
    its final fields are the one-iteration map applied that many times
    to the two random matrices of the initialisation. *)
Theorem X13_number_of_iterations c dx dt n w :
  schedule c = inr (dx, dt, n) → (2 ≤ size c)%Z →
  let N := Z.to_nat (size c) in
  let p := Params (a c) (b c) (tau c) (k c) dx dt in
  let m1 := (draw_rows N N (rng w)).1 in
  let m2 := (draw_rows N N (draw_rows N N (rng w)).2).1 in
  let s := Nat.iter (Z.to_nat n) (advance p N)
             (entry (of_Q 0) m1, entry (of_Q 0) m2) in
  ∃ U V w',
    simulate c w = inr ((U, V), w') ∧
    heap w' !! base U = Some (tabulate N N s.1) ∧
    heap w' !! base V = Some (tabulate N N s.2).
Proof.
  intros H Hsize. cbv zeta.
  pose proof (run_fields c dx dt n w) as Hrun.
  rewrite simulate_schedule, H.
  unfold final_fields in Hrun. rewrite decide_False in Hrun by lia.
  destruct (draw_rows _ _ (rng w)) as [m1 g1]. cbn [fst snd] in *.
  destruct (draw_rows _ _ g1) as [m2 g2]. cbn [fst snd] in *.
  rewrite decide_False in Hrun by lia.
  destruct (run c dx dt n w) as [e|[[U V] w']]; [done|].
  injection Hrun as HU HV. by exists U, V, w'.
Qed.

(** X14. When the iteration count the scalar cells computed is zero or
    negative the loop body is never run and no error is signalled, on a
    grid of one cell either: the final fields are the two random
    matrices as initialised, [U] from the first [size²] samples and [V]
    from the next. *)
Theorem X14_short_runs_return_the_initial_fields c dx dt n w :
  schedule c = inr (dx, dt, n) → (n ≤ 0)%Z → (0 ≤ size c)%Z →
  ∃ U V w',
    simulate c w = inr ((U, V), w') ∧
    heap w' !! base U =
      Some (draw_rows (Z.to_nat (size c)) (Z.to_nat (size c)) (rng w)).1 ∧
    heap w' !! base V =
      Some (draw_rows (Z.to_nat (size c)) (Z.to_nat (size c))
              (draw_rows (Z.to_nat (size c)) (Z.to_nat (size c)) (rng w)).2).1.
Proof.
  intros H Hn Hsize.
  pose proof (run_fields c dx dt n w) as Hrun.
  rewrite simulate_schedule, H.
  assert (Z.to_nat n = 0) as Hn0 by lia.
  unfold final_fields in Hrun. rewrite decide_False in Hrun by lia.
  pose proof (draw_rows_shape (Z.to_nat (size c)) (Z.to_nat (size c)) (rng w))
    as S1.
  destruct (draw_rows _ _ (rng w)) as [m1 g1]. cbn [fst snd] in *.
  pose proof (draw_rows_shape (Z.to_nat (size c)) (Z.to_nat (size c)) g1)
    as S2.
  destruct (draw_rows _ _ g1) as [m2 g2]. cbn [fst snd] in *.
  rewrite decide_False, Hn0 in Hrun by lia.
  cbn [Nat.iter nat_rect fst snd] in Hrun.
  rewrite <- (tabulates_unique _ _ _ _ (tabulates_entry (of_Q 0) _ _ _ S1)),
          <- (tabulates_unique _ _ _ _ (tabulates_entry (of_Q 0) _ _ _ S2))
    in Hrun.
  destruct (run c dx dt n w) as [e|[[U V] w']]; [done|].
  injection Hrun as HU HV. by exists U, V, w'.
Qed.

(** X16. With a negative [size], once the scalar cells have computed
    their values, the initialisation of [U] raises [ValueError]. *)
Theorem X16_negative_grid_size_is_rejected c dx dt n w :
  schedule c = inr (dx, dt, n) → (size c < 0)%Z →
  simulate c w = inl ValueError.
Proof.
  intros H Hsize. rewrite simulate_schedule, H.
  apply fields_of_inl. rewrite run_fields. unfold final_fields.
  by rewrite decide_True.
Qed.
End RunProperties.

(** * The configuration cells *)

Section ScheduleProperties.
Context {G : Type} `{!RandomSource G Qc}.
Implicit Types (w : world Qc G) (c : config Qc).
Local Open Scope Qc_scope.

Lemma schedule_exact c :
  size c ≠ 0%Z →
  let dx := Q2Qc 2 / of_Z (size c) in
  let dt := Q2Qc (9 # 10) * dx ^ 2 / of_Z 2 in
  dt ≠ 0 ∧
  schedule c =
    inr (dx, dt, Z.quot (Qnum (this (T c / dt))) (Zpos (Qden (this (T c / dt))))).
Proof.
  intros Hsize dx dt. unfold schedule.
  pose proof (of_Z_nonzero _ Hsize) as Hs.
  assert (of_Z 2 ≠ 0) as H2 by (by apply of_Z_nonzero).
  assert (of_Q 2 ≠ 0) as H2' by (by apply (of_Z_nonzero 2)).
  assert (of_Q (9 # 10) ≠ 0) as H9.
  { intros E. apply Q2Qc_eq_iff in E. done. }
  assert (dx ≠ 0) as Hdx by (by apply Qcdiv_nonzero).
  assert (dt ≠ 0) as Hdt.
  { apply Qcdiv_nonzero; [|done]. apply Qcmult_nonzero; [done|].
    cbn [Qcpower]. apply Qcmult_nonzero; [done|]. by rewrite Qcmult_1_r. }
  split; [done|].
  rewrite (is_zero_false _ Hs), (is_zero_false _ H2).
  change (fdiv (of_Q 2) (of_Z (size c))) with dx.
  change (fdiv (fmul (of_Q (9 # 10)) (fpow dx 2)) (of_Z 2)) with dt.
  by rewrite (is_zero_false _ Hdt).
Qed.

Lemma schedule_inv c dx dt n :
  schedule c = inr (dx, dt, n) →
  size c ≠ 0%Z ∧ dx = Q2Qc 2 / of_Z (size c) ∧
  dt = Q2Qc (9 # 10) * dx ^ 2 / of_Z 2 ∧ dt ≠ 0 ∧
  n = Z.quot (Qnum (this (T c / dt))) (Zpos (Qden (this (T c / dt)))).
Proof.
  intros H.
  assert (size c ≠ 0%Z) as Hsize.
  { intros E. unfold schedule in H. rewrite E in H. done. }
  destruct (schedule_exact c Hsize) as [Hdt E].
  rewrite E in H. clear E.
  assert (∀ (a a' b b' : Qc) (z z' : Z.t),
            @inr exn _ (a, b, z) = inr (a', b', z') →
            a = a' ∧ b = b' ∧ z = z') as Hinj
    by (intros ?????? [= -> -> ->]; done).
  apply Hinj in H as (<- & <- & <-). done.
Qed.


Lemma Qc_pos_sq (x : Qc) : x ≠ 0 → 0 < x ^ 2.
Proof.
  intros Hx. apply Qc_nonzero in Hx. to_Q. destruct x as [q Hq].
  cbn [this] in *. nra.
Qed.

Lemma stable_step (dx : Qc) :
  dx ≠ 0 →
  0 < Q2Qc (9 # 10) * dx ^ 2 / of_Z 2 ∧
  Q2Qc (9 # 10) * dx ^ 2 / of_Z 2 < dx ^ 2 / (1 + 1).
Proof.
  intros Hdx. pose proof (Qc_pos_sq dx Hdx) as Hsq. clear Hdx.
  unfold of_Z, of_Q, Qc_scalar.
  to_Q. destruct dx as [q Hq]. cbn [this] in *.
  change (/ inject_Z 2)%Q with (1 # 2)%Q.
  change (/ (1 + 1))%Q with (1 # 2)%Q.
  split; nra.
Qed.


(** X12. Whenever the configuration cells compute their three values,
    [size] grid steps [dx] span the domain of length 2, and the time
    step is positive and strictly below [dx² / 2]. *)
Theorem X12_time_step_is_stable c dx dt n :
  schedule c = inr (dx, dt, n) →
  dx * of_Z (size c) = 1 + 1 ∧ 0 < dt ∧ dt < dx ^ 2 / (1 + 1).
Proof.
  intros H. apply schedule_inv in H as (Hsize & -> & -> & _ & _).
  pose proof (of_Z_nonzero _ Hsize) as Hs.
  split.
  - assert (∀ s : Qc, s ≠ 0 → (1 + 1) / s * s = 1 + 1) as Hfield
      by (intros s Hs'; field; exact Hs').
    exact (Hfield _ Hs).
  - apply stable_step. apply Qcdiv_nonzero; [|done]. by apply (of_Z_nonzero 2).
Qed.

(** X15. With [size = 0] the first configuration cell, [dx = 2./size],
    raises [ZeroDivisionError], before any array is created. *)
Theorem X15_empty_grid_is_a_division_by_zero c w :
  size c = 0%Z → simulate c w = inl ZeroDivisionError.
Proof.
  intros Hsize. rewrite simulate_schedule. unfold schedule.
  by rewrite Hsize.
Qed.

End ScheduleProperties.

(** * The initialisation cell *)

Section Initialisation.
Context {F G : Type} `{!Scalar F, !RandomSource G F}.
Implicit Types (w : world F G) (Z U V : ndarray) (g : G).

Lemma draw_row_app a b g :
  draw_row (a + b) g =
  ((draw_row a g).1 ++ (draw_row b (draw_row a g).2).1,
   (draw_row b (draw_row a g).2).2).
Proof.
  revert g. induction a as [|a IH]; intros g; simpl.
  - by destruct (draw_row b g).
  - destruct (draw g) as [x g1]. rewrite IH.
    by destruct (draw_row a g1) as [xs g2].
Qed.

(** The rows are filled one after the other from one stream of
    samples. *)
Lemma draw_rows_stream nr nc g :
  (concat (draw_rows nr nc g).1, (draw_rows nr nc g).2) =
  draw_row (nr * nc) g.
Proof.
  revert g. induction nr as [|nr IH]; intros g; simpl; [done|].
  rewrite draw_row_app. specialize (IH (draw_row nc g).2).
  destruct (draw_row nc g) as [row g1]. cbn [fst snd] in *.
  rewrite <- IH. by destruct (draw_rows nr nc g1) as [rows g2].
Qed.

(** A run is the initialisation followed by the loop. *)
Lemma run_initialise (c : config F) dx dt n w :
  run c dx dt n w =
  (r ← initialise (size c);
   for_range n (step (Params (a c) (b c) (tau c) (k c) dx dt) r.1 r.2);;
   mret r) w.
Proof.
  unfold run, initialise, mbind, M_bind.
  destruct (rand (size c) (size c) w) as [e|[U w1]]; [done|].
  destruct (rand (size c) (size c) w1) as [e|[V w2]]; [done|].
  unfold mret, M_ret. cbn [fst snd].
  by destruct (for_range n _ w2) as [e|[[] w3]].
Qed.

(** The two fields the initialisation returns, with what they hold. *)
Lemma initialise_returns (n : Z.t) w :
  (0 ≤ n)%Z →
  returns (initialise n) w
    (λ r w',
       shape r.1 = (Z.to_nat n, Z.to_nat n) ∧
       shape r.2 = (Z.to_nat n, Z.to_nat n) ∧
       base r.1 ≠ base r.2 ∧
       heap w !! base r.1 = None ∧ heap w !! base r.2 = None ∧
       (∀ l m, heap w !! l = Some m → heap w' !! l = Some m) ∧
       (∃ u v, owns w' r.1 u ∧ owns w' r.2 v) ∧
       ∃ mu mv,
         heap w' !! base r.1 = Some mu ∧ heap w' !! base r.2 = Some mv ∧
         (concat mu ++ concat mv, rng w') =
           draw_row (Z.to_nat n * Z.to_nat n + Z.to_nat n * Z.to_nat n)
             (rng w)).
Proof.
  intros Hn. unfold initialise. set (N := Z.to_nat n).
  eapply returns_bind; [by apply rand_returns|].
  intros U w1 (SU & NU & K1 & G1 & OU). cbv beta.
  eapply returns_bind; [by apply rand_returns|].
  intros V w2 (SV & NV & K2 & G2 & OV). cbv beta.
  apply returns_ret. cbn [fst snd]. fold N in SU, SV, G1, G2, OU, OV.
  pose proof (owns_kept _ _ _ _ K2 OU) as OU2.
  destruct (owns_allocated _ _ _ OU) as [m0 Hm0].
  split_and!; try done.
  - intros E. congruence.
  - destruct (heap w !! base V) as [m|] eqn:E; [|done].
    apply K1 in E. congruence.
  - intros l m Hl. by apply K2, K1.
  - by eexists _, _.
  - pose proof (draw_rows_shape N N (rng w)) as S1.
    pose proof (draw_rows_shape N N (rng w1)) as S2.
    eexists _, _.
    rewrite (owns_buffer _ _ _ _ _ OU2 SU), (owns_buffer _ _ _ _ _ OV SV).
    split; [done|]. split; [done|].
    rewrite <- (tabulates_unique _ _ _ _ (tabulates_entry (of_Q 0) _ _ _ S1)),
            <- (tabulates_unique _ _ _ _ (tabulates_entry (of_Q 0) _ _ _ S2)).
    rewrite draw_row_app, <- draw_rows_stream. cbn [fst snd].
    rewrite G2, <- G1, <- draw_rows_stream. done.
Qed.

(** X18. The initialisation returns two distinct, newly allocated
    [n]×[n] arrays and leaves every existing array as it is; read row by
    row, [U] followed by [V] holds the next [2 n²] samples of the
    generator, in the order they are drawn. *)
Theorem X18_fields_are_filled_from_one_stream (n : Z.t) w :
  (0 ≤ n)%Z →
  returns (initialise n) w
    (λ r w',
       shape r.1 = (Z.to_nat n, Z.to_nat n) ∧
       shape r.2 = (Z.to_nat n, Z.to_nat n) ∧
       base r.1 ≠ base r.2 ∧
       heap w !! base r.1 = None ∧ heap w !! base r.2 = None ∧
       (∀ l m, heap w !! l = Some m → heap w' !! l = Some m) ∧
       ∃ mu mv,
         heap w' !! base r.1 = Some mu ∧ heap w' !! base r.2 = Some mv ∧
         (concat mu ++ concat mv, rng w') =
           draw_row (Z.to_nat n * Z.to_nat n + Z.to_nat n * Z.to_nat n)
             (rng w)).
Proof.
  intros Hn. eapply returns_mono; [by apply initialise_returns|].
  intros r w' (SU & SV & Hne & NU & NV & K & _ & Hm). by split_and!.
Qed.

(** X20. A run keeps to its own two fields: when the loop can run
    ([size ≥ 2] and the scalar cells compute), the two arrays returned
    are distinct and were not in the heap before, every array that was
    there is left as it is, and the generator has been advanced by the
    [2 size²] samples of the initialisation, no more: the loop draws no
    random number. *)
Theorem X20_run_keeps_to_its_fields (c : config F) dx dt n w :
  schedule c = inr (dx, dt, n) → (2 ≤ size c)%Z →
  ∃ U V w',
    simulate c w = inr ((U, V), w') ∧
    base U ≠ base V ∧
    heap w !! base U = None ∧ heap w !! base V = None ∧
    (∀ l m, heap w !! l = Some m → heap w' !! l = Some m) ∧
    rng w' =
      (draw_row (Z.to_nat (size c) * Z.to_nat (size c) +
                 Z.to_nat (size c) * Z.to_nat (size c)) (rng w)).2.
Proof.
  intros Hsched Hsize. rewrite simulate_schedule, Hsched, run_initialise.
  destruct (initialise_returns (size c) w) as
    ([U V] & w1 & Hinit & SU & SV & Hne & NU & NV & K & (u & v & OU & OV) &
     mu & mv & _ & _ & Hrng); [lia|].
  cbn [fst snd] in *. rewrite (bind_inr _ _ _ _ _ Hinit). cbn [fst snd].
  destruct (loop_returns (Params (a c) (b c) (tau c) (k c) dx dt) U V
              (Z.to_nat (size c)) (Z.to_nat n) w1 u v OU OV Hne SU SV)
    as ([] & w2 & Hloop & [Hg P] & _); [lia|].
  unfold for_range. rewrite (bind_inr _ _ _ _ _ Hloop).
  exists U, V, w2. split_and!; try done.
  - intros l m Hl. apply P; [|by apply K].
    apply not_elem_of_union.
    split; apply not_elem_of_singleton_2; congruence.
  - rewrite Hg. by rewrite <- Hrng.
Qed.
End Initialisation.

(** * Further concrete runs *)

Section FurtherSamples.

Lemma integers_owns rows nr nc :
  has_shape nr nc ((λ row : list nat, of_nat <$> row) <$> rows) →
  owns (integers rows) (NDArray 0 0 nr 0 nc)
    (entry (Q2Qc 0) ((λ row : list nat, of_nat <$> row) <$> rows)).
Proof.
  intros Hs. split; [done|]. split; [done|]. eexists. split; [done|].
  by apply tabulates_entry.
Qed.

Lemma world23_Z :
  owns world23 Z23
    (entry (Q2Qc 0)
       ((λ row : list nat, of_nat <$> row) <$> [[1; 2; 3]; [4; 5; 6]])).
Proof. apply integers_owns. split; [done|]. by repeat constructor. Qed.

Lemma world11_Z :
  owns world11 Z11
    (entry (Q2Qc 0) ((λ row : list nat, of_nat <$> row) <$> [[7]])).
Proof. apply integers_owns. split; [done|]. by repeat constructor. Qed.

Lemma X1_witness :
  returns (laplacian (Q2Qc (2 # 3)) Z23) world23
    (λ L w',
       shape L = (nrows Z23 - 2, ncols Z23 - 2) ∧
       ∃ l, fetch L w' = inr (l, w') ∧
         has_shape (nrows Z23 - 2) (ncols Z23 - 2) l ∧
         (nrows Z23 < 3 → l = []) ∧
         (ncols Z23 < 3 → ∀ i j, cell l i j = None)).
Proof.
  eapply (X1_laplacian_of_any_shape (Q2Qc (2 # 3)) world23 Z23).
  apply owns_reads. exact world23_Z.
Defined.

Lemma X2_witness :
  returns (laplacian (Q2Qc (2 # 3)) U3) world3 (λ L1 w1,
    returns (laplacian (Q2Qc (2 # 3)) U3) (perturb world3 U3 0 2 (Q2Qc 9))
      (λ L2 w2,
         shape L1 = shape L2 ∧
         ∃ l, fetch L1 w1 = inr (l, w1) ∧ fetch L2 w2 = inr (l, w2))).
Proof.
  apply (X2_laplacian_ignores_corners
           (Q2Qc (2 # 3)) (Q2Qc 9) world3 U3 ramp 0 2).
  - exact world3_U.
  - split; [by left | by right].
Defined.

Lemma X3_witness :
  returns (neumann U3) world3 (λ _ w1,
    returns (neumann U3) w1 (λ _ w2,
      ∃ m, heap w1 !! base U3 = Some m ∧ heap w2 !! base U3 = Some m)).
Proof.
  apply (X3_neumann_is_idempotent world3 U3 ramp).
  - exact world3_U.
  - simpl. lia.
  - simpl. lia.
Defined.

Lemma X4_witness :
  returns (neumann U3) world3
    (λ _ w',
       rng w' = rng world3 ∧
       (∀ l m, l ≠ base U3 → heap world3 !! l = Some m →
               heap w' !! l = Some m) ∧
       ∃ m m', heap world3 !! base U3 = Some m ∧
         heap w' !! base U3 = Some m' ∧
         has_shape (nrows U3) (ncols U3) m' ∧
         ∀ i j, 1 ≤ i → i + 2 ≤ nrows U3 → 1 ≤ j → j + 2 ≤ ncols U3 →
                cell m' i j = cell m i j).
Proof.
  apply (X4_neumann_writes_the_ring_only world3 U3 ramp).
  - exact world3_U.
  - simpl. lia.
  - simpl. lia.
Defined.

Lemma X5_witness : neumann Z11 world11 = inl IndexError.
Proof.
  eapply (X5_neumann_needs_two_rows_and_columns world11 Z11).
  - exact world11_Z.
  - left. simpl. lia.
Defined.

Lemma X6_witness :
  returns (step notebook3 U3 V3) world3
    (λ _ w',
       ∃ mu mv, heap w' !! base U3 = Some mu ∧ heap w' !! base V3 = Some mv ∧
         ∀ i j, 1 ≤ i ≤ 3 - 2 → 1 ≤ j ≤ 3 - 2 →
           cell mu i j =
             Some (U_update (p_a notebook3) (p_k notebook3) (p_dt notebook3)
                     (ramp i j) (lap (p_dx notebook3) ramp (i - 1) (j - 1))
                     (flat i j)) ∧
           cell mv i j =
             Some (V_update (p_b notebook3) (p_tau notebook3)
                     (p_dt notebook3)
                     (ramp i j) (flat i j)
                     (lap (p_dx notebook3) flat (i - 1) (j - 1)))).
Proof.
  apply (X6_interiors_are_updated_simultaneously
           notebook3 world3 U3 V3 ramp flat 3).
  - exact world3_U.
  - exact world3_V.
  - discriminate.
  - reflexivity.
  - reflexivity.
  - lia.
Defined.

Lemma X7_witness :
  returns (step notebook3 U3 V3) world3 (λ _ w1,
    returns (step notebook3 U3 V3)
      (perturb (perturb world3 U3 0 0 (Q2Qc 9)) V3 2 0 (Q2Qc 4)) (λ _ w2,
      ∃ mu mv,
        heap w1 !! base U3 = Some mu ∧ heap w2 !! base U3 = Some mu ∧
        heap w1 !! base V3 = Some mv ∧ heap w2 !! base V3 = Some mv)).
Proof.
  apply (X7_iteration_ignores_corners
           notebook3 world3 U3 V3 ramp flat 3 0 0 2 0).
  - exact world3_U.
  - exact world3_V.
  - discriminate.
  - reflexivity.
  - reflexivity.
  - lia.
  - split; by left.
  - split; [by right | by left].
Defined.

Lemma X8_witness :
  returns (step balanced U5 V5) world5
    (λ _ w',
       heap w' !! base U5 =
         Some (tabulate 5 5
                 (uniform (U_update (p_a balanced) (p_k balanced)
                             (p_dt balanced) half
                             (lap (p_dx balanced) (uniform half) 0 0)
                             half))) ∧
       heap w' !! base V5 =
         Some (tabulate 5 5
                 (uniform (V_update (p_b balanced) (p_tau balanced)
                             (p_dt balanced) half half
                             (lap (p_dx balanced) (uniform half) 0 0))))).
Proof.
  apply (X8_uniform_fields_stay_uniform balanced world5 U5 V5 half half 5).
  - exact world5_U.
  - exact world5_V.
  - discriminate.
  - reflexivity.
  - reflexivity.
  - lia.
Defined.

Lemma X9_witness :
  returns (repeat_body 4 (step notebook3 U3 V3)) world3
    (λ _ w',
       rng w' = rng world3 ∧
       (∀ l m, l ≠ base U3 → l ≠ base V3 →
               heap world3 !! l = Some m → heap w' !! l = Some m) ∧
       ∃ mu mv, heap w' !! base U3 = Some mu ∧ heap w' !! base V3 = Some mv ∧
         has_shape 3 3 mu ∧ has_shape 3 3 mv).
Proof.
  apply (X9_loop_works_in_place notebook3 world3 U3 V3 ramp flat 3 4).
  - exact world3_U.
  - exact world3_V.
  - discriminate.
  - reflexivity.
  - reflexivity.
  - lia.
Defined.

Lemma X10_witness :
  returns (laplacian (Q2Qc (1 # 2)) Z4) world_bowl
    (λ L w',
       ∃ l, fetch L w' = inr (l, w') ∧
         has_shape (nrows Z4 - 2) (ncols Z4 - 2) l ∧
         ∀ i j, i < nrows Z4 - 2 → j < ncols Z4 - 2 →
                cell l i j =
                  Some (Qcmult (Qcplus 1 1) (Qcplus (Q2Qc 1) (Q2Qc 2)))).
Proof.
  apply (X10_laplacian_of_quadratic_field
           (Q2Qc 1) (Q2Qc 2) (Q2Qc 3) (Q2Qc 4) (Q2Qc 5) (Q2Qc 6)
           (Q2Qc (-1)) (Q2Qc (-1)) (Q2Qc (1 # 2))).
  - discriminate.
  - apply owns_reads, owns_tabulate; reflexivity.
Defined.

Lemma X11_witness :
  returns (step balanced U5 V5) world5
    (λ _ w',
       ∃ mu mv,
         heap world5 !! base U5 = Some mu ∧ heap w' !! base U5 = Some mu ∧
         heap world5 !! base V5 = Some mv ∧ heap w' !! base V5 = Some mv).
Proof.
  apply (X11_homogeneous_equilibrium_is_fixed balanced world5 U5 V5 half 5).
  - exact world5_U.
  - exact world5_V.
  - discriminate.
  - reflexivity.
  - reflexivity.
  - lia.
  - by apply Qc_is_canon.
  - discriminate.
  - discriminate.
Defined.

Lemma X12_witness :
  Qcmult dx3 (of_Z (size (with_grid 3 (Q2Qc (1 # 10))))) = Qcplus 1 1 ∧
  Qclt 0 dt3 ∧ Qclt dt3 (Qcdiv (Qcpower dx3 2) (Qcplus 1 1)).
Proof.
  apply (X12_time_step_is_stable (with_grid 3 (Q2Qc (1 # 10))) dx3 dt3 0).
  reflexivity.
Defined.

Lemma X13_witness :
  ∃ U V w',
    simulate (with_grid 3 (Q2Qc 1)) empty_world = inr ((U, V), w') ∧
    heap w' !! base U =
      Some (tabulate 3 3
              (Nat.iter (Z.to_nat 5)
                 (advance
                    (Params (a (with_grid 3 (Q2Qc 1)))
                       (b (with_grid 3 (Q2Qc 1)))
                       (tau (with_grid 3 (Q2Qc 1)))
                       (k (with_grid 3 (Q2Qc 1))) dx3 dt3) 3)
                 (entry (of_Q 0) (draw_rows 3 3 (rng empty_world)).1,
                  entry (of_Q 0)
                    (draw_rows 3 3
                       (draw_rows 3 3 (rng empty_world)).2).1)).1) ∧
    heap w' !! base V =
      Some (tabulate 3 3
              (Nat.iter (Z.to_nat 5)
                 (advance
                    (Params (a (with_grid 3 (Q2Qc 1)))
                       (b (with_grid 3 (Q2Qc 1)))
                       (tau (with_grid 3 (Q2Qc 1)))
                       (k (with_grid 3 (Q2Qc 1))) dx3 dt3) 3)
                 (entry (of_Q 0) (draw_rows 3 3 (rng empty_world)).1,
                  entry (of_Q 0)
                    (draw_rows 3 3
                       (draw_rows 3 3 (rng empty_world)).2).1)).2).
Proof.
  apply (X13_number_of_iterations
           (with_grid 3 (Q2Qc 1)) dx3 dt3 5 empty_world).
  - reflexivity.
  - simpl. lia.
Defined.

Lemma X14_witness :
  ∃ U V w',
    simulate (with_grid 3 (Q2Qc (1 # 10))) empty_world = inr ((U, V), w') ∧
    heap w' !! base U = Some (draw_rows 3 3 (rng empty_world)).1 ∧
    heap w' !! base V =
      Some (draw_rows 3 3 (draw_rows 3 3 (rng empty_world)).2).1.
Proof.
  apply (X14_short_runs_return_the_initial_fields
           (with_grid 3 (Q2Qc (1 # 10))) dx3 dt3 0 empty_world).
  - reflexivity.
  - lia.
  - simpl. lia.
Defined.

Lemma X15_witness :
  simulate (with_grid 0 (Q2Qc 10)) empty_world = inl ZeroDivisionError.
Proof.
  apply (X15_empty_grid_is_a_division_by_zero (with_grid 0 (Q2Qc 10))).
  reflexivity.
Defined.

Lemma X16_witness :
  simulate (with_grid (-3) (Q2Qc 10)) empty_world = inl ValueError.
Proof.
  apply (X16_negative_grid_size_is_rejected (with_grid (-3) (Q2Qc 10))
           (Qcdiv (Q2Qc 2) (of_Z (-3)))
           (Qcdiv (Qcmult (Q2Qc (9 # 10))
                     (Qcpower (Qcdiv (Q2Qc 2) (of_Z (-3))) 2)) (of_Z 2))
           50%Z).
  - reflexivity.
  - reflexivity.
Defined.


Lemma X18_witness :
  returns (initialise 2) empty_world
    (λ r w',
       shape r.1 = (Z.to_nat 2, Z.to_nat 2) ∧
       shape r.2 = (Z.to_nat 2, Z.to_nat 2) ∧
       base r.1 ≠ base r.2 ∧
       heap empty_world !! base r.1 = None ∧
       heap empty_world !! base r.2 = None ∧
       (∀ l m, heap empty_world !! l = Some m → heap w' !! l = Some m) ∧
       ∃ mu mv,
         heap w' !! base r.1 = Some mu ∧ heap w' !! base r.2 = Some mv ∧
         (concat mu ++ concat mv, rng w') =
           draw_row (Z.to_nat 2 * Z.to_nat 2 + Z.to_nat 2 * Z.to_nat 2)
             (rng empty_world)).
Proof.
  apply (X18_fields_are_filled_from_one_stream 2 empty_world). lia.
Defined.

Lemma X19_witness :
  returns (laplacian (Q2Qc (2 # 3)) U3) world3_blend (λ L1 w1,
    returns (laplacian (Q2Qc (2 # 3)) V3) world3_blend (λ L2 w2,
      returns (laplacian (Q2Qc (2 # 3)) W3) world3_blend (λ L3 w3,
        ∃ l1 l2 l3,
          fetch L1 w1 = inr (l1, w1) ∧ fetch L2 w2 = inr (l2, w2) ∧
          fetch L3 w3 = inr (l3, w3) ∧
          ∀ i j, i < nrows W3 - 2 → j < ncols W3 - 2 →
            ∃ x y, cell l1 i j = Some x ∧ cell l2 i j = Some y ∧
                   cell l3 i j = Some (Qcplus (Qcmult (Q2Qc 2) x) y)))).
Proof.
  apply (X19_laplacian_is_linear (Q2Qc (2 # 3)) (Q2Qc 2) world3_blend
           U3 V3 W3 ramp flat).
  - apply owns_reads, owns_tabulate; reflexivity.
  - apply owns_reads, owns_tabulate; reflexivity.
  - apply owns_reads, owns_tabulate; reflexivity.
  - reflexivity.
  - reflexivity.
Defined.

Lemma X20_witness :
  ∃ U V w',
    simulate (with_grid 3 (Q2Qc 1)) empty_world = inr ((U, V), w') ∧
    base U ≠ base V ∧
    heap empty_world !! base U = None ∧ heap empty_world !! base V = None ∧
    (∀ l m, heap empty_world !! l = Some m → heap w' !! l = Some m) ∧
    rng w' =
      (draw_row (Z.to_nat (size (with_grid 3 (Q2Qc 1))) *
                   Z.to_nat (size (with_grid 3 (Q2Qc 1))) +
                 Z.to_nat (size (with_grid 3 (Q2Qc 1))) *
                   Z.to_nat (size (with_grid 3 (Q2Qc 1))))
         (rng empty_world)).2.
Proof.
  apply (X20_run_keeps_to_its_fields (with_grid 3 (Q2Qc 1)) dx3 dt3 5).
  - reflexivity.
  - simpl. lia.
Defined.
End FurtherSamples.
